(** * pdf_to_word_clean.py: extraction, normalisation and paragraph writing

    A shallow embedding of [extract_text_without_footnotes], [clean_text]
    and [create_word_document], together with the part of the Python
    runtime they rest on (str methods, the [re] module on the patterns the
    program uses, IEEE binary64 comparisons), and the properties of the
    natural-language specification checked against it.

    Python [str] values are sequences of Unicode code points; they are
    modelled as lists of [N].  Character tables follow CPython 3.11
    (Unicode 14.0.0). *)

From Stdlib Require Import List Bool Arith NArith ZArith Lia Ascii String Floats.
Import ListNotations.

Set Implicit Arguments.
Set Warnings "-inexact-float".

(* ================================================================== *)
(** ** Code points and string literals *)

Definition codepoint := N.
Definition pystr := list codepoint.

Definition LF : codepoint := 10%N.
Definition SP : codepoint := 32%N.

Local Open Scope N_scope.

(** Python escape sequences of a literal: backslash-n, backslash-t and
    the doubled backslash; any other byte stands for itself. *)
Fixpoint unescape (bs : list N) : list N :=
  match bs with
  | [] => []
  | b0 :: r0 =>
      match r0 with
      | b1 :: r1 =>
          if (b0 =? 92) && (b1 =? 110) then 10 :: unescape r1
          else if (b0 =? 92) && (b1 =? 116) then 9 :: unescape r1
          else if (b0 =? 92) && (b1 =? 92) then 92 :: unescape r1
          else b0 :: unescape r0
      | [] => [b0]
      end
  end.

(** UTF-8 decoding of the bytes of a source literal into code points. *)
Fixpoint utf8_decode (bs : list N) : pystr :=
  match bs with
  | [] => []
  | b0 :: r0 =>
      if b0 <? 128 then b0 :: utf8_decode r0
      else
        match r0 with
        | [] => []
        | b1 :: r1 =>
            if b0 <? 224 then ((b0 - 192) * 64 + (b1 - 128)) :: utf8_decode r1
            else
              match r1 with
              | [] => []
              | b2 :: r2 =>
                  if b0 <? 240
                  then ((b0 - 224) * 4096 + (b1 - 128) * 64 + (b2 - 128))
                         :: utf8_decode r2
                  else
                    match r2 with
                    | [] => []
                    | b3 :: r3 =>
                        ((b0 - 240) * 262144 + (b1 - 128) * 4096
                         + (b2 - 128) * 64 + (b3 - 128)) :: utf8_decode r3
                    end
              end
        end
  end.

(** [py "..."] is the Python string written with the same literal. *)
Definition py (s : string) : pystr :=
  utf8_decode (unescape (map N_of_ascii (list_ascii_of_string s))).

(* ================================================================== *)
(** ** Unicode character tables (CPython 3.11, Unicode 14.0.0) *)

Definition in_ranges (c : codepoint) (rs : list (N * N)) : bool :=
  existsb (fun r => (fst r <=? c) && (c <=? snd r)) rs.

(** [Py_UNICODE_ISSPACE]: used by [str.strip], [str.isspace] and by the
    pattern category backslash-s. *)
Definition space_ranges : list (N * N) :=
  [(9, 13); (28, 32); (133, 133); (160, 160); (5760, 5760); (8192, 8202);
   (8232, 8233); (8239, 8239); (8287, 8287); (12288, 12288)].

Definition is_space (c : codepoint) : bool := in_ranges c space_ranges.

(** [Py_UNICODE_ISDECIMAL] (general category Nd): the pattern category
    backslash-d. *)
Definition decimal_ranges : list (N * N) :=
  [(48, 57); (1632, 1641); (1776, 1785); (1984, 1993); (2406, 2415);
   (2534, 2543); (2662, 2671); (2790, 2799); (2918, 2927); (3046, 3055);
   (3174, 3183); (3302, 3311); (3430, 3439); (3558, 3567); (3664, 3673);
   (3792, 3801); (3872, 3881); (4160, 4169); (4240, 4249); (6112, 6121);
   (6160, 6169); (6470, 6479); (6608, 6617); (6784, 6793); (6800, 6809);
   (6992, 7001); (7088, 7097); (7232, 7241); (7248, 7257); (42528, 42537);
   (43216, 43225); (43264, 43273); (43472, 43481); (43504, 43513);
   (43600, 43609); (44016, 44025); (65296, 65305); (66720, 66729);
   (68912, 68921); (69734, 69743); (69872, 69881); (69942, 69951);
   (70096, 70105); (70384, 70393); (70736, 70745); (70864, 70873);
   (71248, 71257); (71360, 71369); (71472, 71481); (71904, 71913);
   (72016, 72025); (72784, 72793); (73040, 73049); (73120, 73129);
   (92768, 92777); (92864, 92873); (93008, 93017); (120782, 120831);
   (123200, 123209); (123632, 123641); (125264, 125273); (130032, 130041)].

Definition is_decimal (c : codepoint) : bool := in_ranges c decimal_ranges.

(** [Py_UNICODE_ISDIGIT] (numeric type Digit or Decimal): the character
    test behind [str.isdigit].  It is wider than Nd: superscript and
    circled digits are digits for [str.isdigit]. *)
Definition digit_ranges : list (N * N) :=
  [(48, 57); (178, 179); (185, 185); (1632, 1641); (1776, 1785);
   (1984, 1993); (2406, 2415); (2534, 2543); (2662, 2671); (2790, 2799);
   (2918, 2927); (3046, 3055); (3174, 3183); (3302, 3311); (3430, 3439);
   (3558, 3567); (3664, 3673); (3792, 3801); (3872, 3881); (4160, 4169);
   (4240, 4249); (4969, 4977); (6112, 6121); (6160, 6169); (6470, 6479);
   (6608, 6618); (6784, 6793); (6800, 6809); (6992, 7001); (7088, 7097);
   (7232, 7241); (7248, 7257); (8304, 8304); (8308, 8313); (8320, 8329);
   (9312, 9320); (9332, 9340); (9352, 9360); (9450, 9450); (9461, 9469);
   (9471, 9471); (10102, 10110); (10112, 10120); (10122, 10130);
   (42528, 42537); (43216, 43225); (43264, 43273); (43472, 43481);
   (43504, 43513); (43600, 43609); (44016, 44025); (65296, 65305);
   (66720, 66729); (68160, 68163); (68912, 68921); (69216, 69224);
   (69714, 69722); (69734, 69743); (69872, 69881); (69942, 69951);
   (70096, 70105); (70384, 70393); (70736, 70745); (70864, 70873);
   (71248, 71257); (71360, 71369); (71472, 71481); (71904, 71913);
   (72016, 72025); (72784, 72793); (73040, 73049); (73120, 73129);
   (92768, 92777); (92864, 92873); (93008, 93017); (120782, 120831);
   (123200, 123209); (123632, 123641); (125264, 125273); (127232, 127242);
   (130032, 130041)].

Definition is_digit (c : codepoint) : bool := in_ranges c digit_ranges.

(** [_sre.unicode_tolower], the simple lower-case mapping the pattern
    engine uses under IGNORECASE.  The table is cut to the code points
    whose image lies in Basic Latin or Latin-1 or is one of o/u with double
    acute: these are all the code points that can fold onto a letter
    written in one of the program's patterns.  Every other code point is
    left in place, which gives the same matches for these patterns. *)
Definition unicode_tolower (c : codepoint) : codepoint :=
  if (65 <=? c) && (c <=? 90) then c + 32
  else if (192 <=? c) && (c <=? 222) && negb (c =? 215) then c + 32
  else if c =? 304 then 105
  else if c =? 336 then 337
  else if c =? 368 then 369
  else if c =? 376 then 255
  else if c =? 7838 then 223
  else if c =? 8490 then 107
  else if c =? 8491 then 229
  else c.

(** [re._casefix._EXTRA_CASES]: other lower-case code points with the same
    upper case, again cut to the entries that touch Latin letters. *)
Definition casefix (c : codepoint) : list codepoint :=
  if c =? 105 then [305]
  else if c =? 115 then [383]
  else if c =? 181 then [956]
  else if c =? 305 then [105]
  else if c =? 383 then [115]
  else [].

(* ================================================================== *)
(** ** str methods *)

Fixpoint lstrip (s : pystr) : pystr :=
  match s with
  | [] => []
  | c :: s' => if is_space c then lstrip s' else s
  end.

Definition rstrip (s : pystr) : pystr := rev (lstrip (rev s)).

(** [str.strip()] with no argument: Unicode whitespace off both ends. *)
Definition strip (s : pystr) : pystr := rstrip (lstrip s).

(** [str.isdigit()]: at least one character and all of them digits. *)
Definition isdigit (s : pystr) : bool :=
  match s with
  | [] => false
  | _ => forallb is_digit s
  end.

Fixpoint starts_with (p s : pystr) : bool :=
  match p, s with
  | [], _ => true
  | x :: p', y :: s' => (x =? y) && starts_with p' s'
  | _ :: _, [] => false
  end.

(** [str.replace(old, new)] for a non-empty [old]: occurrences are found
    left to right and do not overlap; [skip] counts the characters of the
    current occurrence still to be passed over. *)
Fixpoint replace_loop (old new : pystr) (s : pystr) (skip : nat) : pystr :=
  match s with
  | [] => []
  | c :: s' =>
      match skip with
      | S j => replace_loop old new s' j
      | O =>
          if starts_with old s
          then new ++ replace_loop old new s' (Nat.pred (List.length old))
          else c :: replace_loop old new s' O
      end
  end.

(** With an empty [old], Python puts [new] before every character and at
    the end. *)
Definition str_replace (old new : pystr) (s : pystr) : pystr :=
  match old with
  | [] => flat_map (fun c => new ++ [c]) s ++ new
  | _ => replace_loop old new s O
  end.

(** [str.split(sep)] for a non-empty separator: the segments between the
    occurrences of [sep], found left to right; [acc] holds the current
    segment in reverse. *)
Fixpoint split_loop (sep : pystr) (acc : pystr) (s : pystr) (skip : nat)
  : list pystr :=
  match s with
  | [] => [rev acc]
  | c :: s' =>
      match skip with
      | S j => split_loop sep acc s' j
      | O =>
          if starts_with sep s
          then rev acc :: split_loop sep [] s' (Nat.pred (List.length sep))
          else split_loop sep (c :: acc) s' O
      end
  end.

Definition str_split (sep : pystr) (s : pystr) : list pystr :=
  split_loop sep [] s O.

(** [sep.join(parts)]. *)
Fixpoint str_join (sep : pystr) (parts : list pystr) : pystr :=
  match parts with
  | [] => []
  | [p] => p
  | p :: rest => p ++ sep ++ str_join sep rest
  end.

(* ================================================================== *)
(** ** Exceptions *)

Inductive exn : Type :=
  | ReError (msg : string).        (* re.error *)

Inductive result (A : Type) : Type :=
  | Ok (a : A)
  | Raise (e : exn).

Arguments Ok {A} a.
Arguments Raise {A} e.

Definition bind {A B : Type} (m : result A) (f : A -> result B) : result B :=
  match m with
  | Ok a => f a
  | Raise e => Raise e
  end.

Notation "x <- m ;; f" := (bind m (fun x => f))
  (at level 61, m at next level, right associativity).

(* ================================================================== *)
(** ** The pattern engine of [re], on the constructs the program uses

    The matcher is the backtracking matcher of CPython's [_sre] written
    in continuation-passing style: alternatives are tried in order,
    repetitions are greedy and give characters back one at a time, and the
    first complete match wins.  Every repetition in the program's patterns
    is over a one-character atom, which is what [Repeat] covers. *)

Inductive citem : Type :=
  | Lit (c : codepoint)              (* a character *)
  | Range (lo hi : codepoint)        (* lo-hi *)
  | CatDigit                         (* backslash-d *)
  | CatSpace.                        (* backslash-s *)

Inductive regex : Type :=
  | Eps
  | Cls (neg : bool) (items : list citem)    (* x, [..], [^..], \d, \s *)
  | Cat (r1 r2 : regex)
  | Or (r1 r2 : regex)                       (* r1|r2 *)
  | Maybe (r : regex)                        (* (?:r)? *)
  | Repeat (neg : bool) (items : list citem) (lo : nat) (hi : option nat)
                                             (* x*, x+, x{lo,hi} *)
  | Group (i : nat) (r : regex)              (* (r), the i-th group *)
  | Ahead (r : regex)                        (* (?=r) *)
  | Behind (neg : bool) (items : list citem) (* (?<=x) *)
  | AtEnd.                                   (* $ without MULTILINE *)

Definition chr (c : codepoint) : regex := Cls false [Lit c].

Fixpoint lits (s : pystr) : regex :=
  match s with
  | [] => Eps
  | c :: s' => Cat (chr c) (lits s')
  end.

Fixpoint cats (rs : list regex) : regex :=
  match rs with
  | [] => Eps
  | [r] => r
  | r :: rs' => Cat r (cats rs')
  end.

Fixpoint alt (r : regex) (rs : list regex) : regex :=
  match rs with
  | [] => r
  | r' :: rs' => Or r (alt r' rs')
  end.

Fixpoint ngroups (r : regex) : nat :=
  match r with
  | Cat r1 r2 | Or r1 r2 => Nat.max (ngroups r1) (ngroups r2)
  | Maybe r1 | Ahead r1 => ngroups r1
  | Group i r1 => Nat.max i (ngroups r1)
  | _ => O
  end.

Definition codepoints (lo hi : codepoint) : list codepoint :=
  map (fun i => lo + N.of_nat i) (List.seq 0 (N.to_nat (hi + 1 - lo))).

(** A character of the pattern against a character of the text.  Under
    IGNORECASE the engine lower-cases the text character and compares it
    with the lower-cased pattern character and its [casefix] companions. *)
Definition lit_match (ic : bool) (l c : codepoint) : bool :=
  if ic
  then (unicode_tolower c =? unicode_tolower l)
       || existsb (N.eqb (unicode_tolower c)) (casefix (unicode_tolower l))
  else c =? l.

Definition item_match (ic : bool) (it : citem) (c : codepoint) : bool :=
  match it with
  | Lit l => lit_match ic l c
  | Range lo hi =>
      if ic then existsb (fun l => lit_match true l c) (codepoints lo hi)
      else (lo <=? c) && (c <=? hi)
  | CatDigit => is_decimal (if ic then unicode_tolower c else c)
  | CatSpace => is_space (if ic then unicode_tolower c else c)
  end.

Definition set_match (ic neg : bool) (items : list citem) (c : codepoint)
  : bool :=
  xorb neg (existsb (fun it => item_match ic it c) items).

(** Captured groups, most recent first. *)
Definition groups := list (nat * pystr).

Fixpoint group_lookup (i : nat) (g : groups) : option pystr :=
  match g with
  | [] => None
  | (j, s) :: g' => if Nat.eqb i j then Some s else group_lookup i g'
  end.

(** A continuation receives the text before the position (reversed), the
    text after it, the number of characters matched so far and the groups. *)
Definition cont := pystr -> pystr -> nat -> groups -> option (nat * groups).

Definition below (hi : option nat) (cnt : nat) : bool :=
  match hi with
  | None => true
  | Some h => Nat.ltb cnt h
  end.

(** Greedy repetition of a one-character test: take as many characters as
    allowed, then give them back one by one until the rest matches. *)
Fixpoint rep (p : codepoint -> bool) (lo : nat) (hi : option nat) (cnt : nat)
  (b a : pystr) (n : nat) (g : groups) (k : cont) : option (nat * groups) :=
  let stop := if Nat.leb lo cnt then k b a n g else None in
  match a with
  | [] => stop
  | c :: a' =>
      if p c && below hi cnt
      then match rep p lo hi (S cnt) (c :: b) a' (S n) g k with
           | Some res => Some res
           | None => stop
           end
      else stop
  end.

Fixpoint rx (ic : bool) (r : regex) (b a : pystr) (n : nat) (g : groups)
  (k : cont) : option (nat * groups) :=
  match r with
  | Eps => k b a n g
  | Cls neg items =>
      match a with
      | c :: a' => if set_match ic neg items c then k (c :: b) a' (S n) g
                   else None
      | [] => None
      end
  | Cat r1 r2 => rx ic r1 b a n g (fun b' a' n' g' => rx ic r2 b' a' n' g' k)
  | Or r1 r2 =>
      match rx ic r1 b a n g k with
      | Some res => Some res
      | None => rx ic r2 b a n g k
      end
  | Maybe r1 =>
      match rx ic r1 b a n g k with
      | Some res => Some res
      | None => k b a n g
      end
  | Repeat neg items lo hi => rep (set_match ic neg items) lo hi O b a n g k
  | Group i r1 =>
      rx ic r1 b a n g
         (fun b' a' n' g' => k b' a' n' ((i, firstn (n' - n) a) :: g'))
  | Ahead r1 =>
      match rx ic r1 b a n g (fun _ _ _ g' => Some (O, g')) with
      | Some (_, g') => k b a n g'
      | None => None
      end
  | Behind neg items =>
      match b with
      | c :: _ => if set_match ic neg items c then k b a n g else None
      | [] => None
      end
  | AtEnd =>
      match a with
      | [] => k b a n g
      | [c] => if c =? LF then k b a n g else None
      | _ => None
      end
  end.

(** One match attempt at a position: [Some (len, groups)] on success.
    With [adv] (the engine's [must_advance]) an empty match is refused. *)
Definition match_at (ic : bool) (r : regex) (adv : bool) (b a : pystr)
  : option (nat * groups) :=
  rx ic r b a O []
     (fun _ _ n g => if adv && Nat.eqb n 0 then None else Some (n, g)).

(** Replacement templates: literal characters and group references. *)
Inductive titem : Type :=
  | TChar (c : codepoint)
  | TRef (i : nat).                 (* backslash-i *)

Definition template := list titem.

Definition literal (s : pystr) : template := map TChar s.

Definition expand (t : template) (whole : pystr) (g : groups) : pystr :=
  flat_map (fun it =>
              match it with
              | TChar c => [c]
              | TRef O => whole
              | TRef i => match group_lookup i g with
                          | Some s => s
                          | None => []     (* an unmatched group is empty *)
                          end
              end) t.

Definition template_ok (r : regex) (t : template) : bool :=
  forallb (fun it => match it with
                     | TChar _ => true
                     | TRef i => Nat.leb i (ngroups r)
                     end) t.

Section Sub.
Variable ic : bool.
Variable r : regex.
Variable t : template.

(** The loop of [re.sub]: search from the current position, copy the
    text up to the match, put the expanded template, go on after the
    match.  [b] is the text already passed (reversed, the look-behind
    context), [a] the text from the current position, [skip] the number
    of characters of the current match still to be passed over.  After an
    empty match the search at the same position is repeated with
    [must_advance]. *)
Fixpoint sub_loop (b a : pystr) (skip : nat) : pystr :=
  match a with
  | [] =>
      match skip with
      | O => match match_at ic r false b [] with
             | Some (_, g) => expand t [] g
             | None => []
             end
      | S _ => []
      end
  | c :: a' =>
      match skip with
      | S j => sub_loop (c :: b) a' j
      | O =>
          match match_at ic r false b a with
          | Some (S j, g) => expand t (firstn (S j) a) g ++ sub_loop (c :: b) a' j
          | Some (O, g) =>
              expand t [] g ++
              match match_at ic r true b a with
              | Some (S j, g') =>
                  expand t (firstn (S j) a) g' ++ sub_loop (c :: b) a' j
              | _ => c :: sub_loop (c :: b) a' O
              end
          | None => c :: sub_loop (c :: b) a' O
          end
      end
  end.
End Sub.

(** The loop from a position where no match is being passed over. *)
Definition sub (ic : bool) (r : regex) (t : template) (b a : pystr) : pystr :=
  sub_loop ic r t b a O.

(** [re.sub(pattern, repl, text, flags)].  The template is parsed before
    the search starts: a reference to a group the pattern does not have
    raises [re.error]. *)
Definition re_sub (ic : bool) (r : regex) (t : template) (text : pystr)
  : result pystr :=
  if template_ok r t then Ok (sub ic r t [] text)
  else Raise (ReError "invalid group reference").

(* ================================================================== *)
(** ** clean_text

    Each pattern is given as the syntax tree of the regular expression in
    the source, one element per line with the piece of the source
    expression it stands for. *)

Module Normalizer.

(** superscript_digits *)
Definition superscript_digits : pystr := py "⁰¹²³⁴⁵⁶⁷⁸⁹".

(** for digit in superscript_digits: text = text.replace(digit, ...) *)
Definition rule1 (text : pystr) : pystr :=
  fold_left (fun txt digit => str_replace [digit] [] txt) superscript_digits text.

(** The tail shared by the two annotation patterns (source lines 111, 119). *)
Definition to_end_of_sentence : regex :=
  cats [ Repeat true [Lit LF; Lit 46] 0 None;                 (* [^\n.]*    *)
        Maybe (Cat (chr 46) (Repeat true [Lit LF] 0 None));  (* (?: \. [^\n]* )? *)
        Ahead (Or (chr LF) AtEnd) ].                         (* (?= \n | $ ) *)

(** Source line 111, with re.IGNORECASE. *)
Definition pat_see : regex :=
  Cat (lits (py "Lásd:")) to_end_of_sentence.

(** Source line 119, with re.IGNORECASE. *)
Definition pat_amend : regex :=
  cats [ alt (lits (py "Megállapította"))
            [ lits (py "Hatályos"); lits (py "Beiktatta");
              lits (py "Módosította"); lits (py "Hatályon kívül helyezte") ];
        chr 58;                                              (* : *)
        to_end_of_sentence ].

(** The letters of the class [a-záéíóöőúüű]. *)
Definition alphabet : list citem :=
  Range 97 122 :: map Lit (py "áéíóöőúüű").

(** Source line 128, with re.IGNORECASE. *)
Definition pat_citation : regex :=
  cats [ chr 40;                                              (* \(    *)
        Repeat false [CatDigit] 4 (Some 4%nat);                 (* \d{4} *)
        chr 46;                                              (* \.    *)
        Repeat false [CatSpace] 0 None;                         (* \s*   *)
        Repeat false (map Lit (py "IVX")) 1 None;            (* [IVX]+ *)
        chr 46;                                              (* \.    *)
        Repeat false [CatSpace] 0 None;                         (* \s*   *)
        Repeat false [CatDigit] 1 None;                         (* \d+   *)
        chr 45;                                              (* -     *)
        Repeat false (Range 97 122 :: map Lit (py "éáíóöőúüű")) 1 None;
                                                             (* [a-zéáíóöőúüű]+ *)
        chr 46;                                              (* \.    *)
        chr 41 ].                                            (* \)    *)

(** The closing punctuation of the class [.,;:!?)]. *)
Definition closing : list citem := map Lit (py ".,;:!?)").

(** Source line 136, with re.IGNORECASE. *)
Definition pat_fused : regex :=
  cats [ Behind false alphabet;                          (* (?<= [a-záéíóöőúüű] ) *)
        Group 1 (Repeat false [CatDigit] 1 (Some 3%nat));  (* ( \d{1,3} ) *)
        Ahead (alt (Cls false [CatSpace]) [Cls false closing; AtEnd]) ].
                                                        (* (?= \s | [.,;:!?)] | $ ) *)

(** Source line 140; the template is the raw string of an opening
    parenthesis, backslash-1, a closing parenthesis and a space. *)
Definition pat_marker : regex :=
  cats [ chr 40;                                         (* \(     *)
        Group 1 (Repeat false [CatDigit] 1 None);          (* ( \d+ ) *)
        chr 41;                                         (* \)     *)
        Repeat false [CatSpace] 0 None;                    (* \s*    *)
        chr LF;                                         (* \n     *)
        Repeat false [Lit LF] 1 None ].                 (* \n+    *)

Definition tpl_marker : template := [TChar 40; TRef 1; TChar 41; TChar SP].

(** Source line 143: one or more spaces. *)
Definition pat_spaces : regex := Repeat false [Lit SP] 1 None.

(** Source line 146: three or more line breaks. *)
Definition pat_breaks : regex := Repeat false [Lit LF] 3 None.

(** Source line 149. *)
Definition pat_blank : regex :=
  cats [ chr LF; chr LF;                                 (* \n \n *)
        Repeat false [CatSpace] 0 None;                    (* \s*   *)
        chr LF; chr LF ].                               (* \n \n *)

Definition rule2 (text : pystr) : result pystr :=
  re_sub true pat_see (literal []) text.
Definition rule3 (text : pystr) : result pystr :=
  re_sub true pat_amend (literal []) text.
Definition rule4 (text : pystr) : result pystr :=
  re_sub true pat_citation (literal []) text.
Definition rule5 (text : pystr) : result pystr :=
  re_sub true pat_fused (literal []) text.
Definition rule6 (text : pystr) : result pystr :=
  re_sub false pat_marker tpl_marker text.
Definition rule7 (text : pystr) : result pystr :=
  re_sub false pat_spaces (literal [SP]) text.
Definition rule8 (text : pystr) : result pystr :=
  re_sub false pat_breaks (literal [LF; LF]) text.
Definition rule9 (text : pystr) : result pystr :=
  re_sub false pat_blank (literal [LF; LF]) text.
Definition rule10 (text : pystr) : pystr := strip text.

Definition clean_text (text : pystr) : result pystr :=
  let text := rule1 text in
  text <- rule2 text ;;
  text <- rule3 text ;;
  text <- rule4 text ;;
  text <- rule5 text ;;
  text <- rule6 text ;;
  text <- rule7 text ;;
  text <- rule8 text ;;
  text <- rule9 text ;;
  Ok (rule10 text).

End Normalizer.

(* ================================================================== *)
(** ** extract_text_without_footnotes

    The page-content source ([page.get_text("dict")]) is taken as data:
    a document is a list of pages, a page has a height and blocks, a block
    may have lines (image blocks have none) and a bounding box, a line has
    spans.  Coordinates and font sizes are binary64 floats, the style
    flags an integer. *)

Module Extractor.

Record Span : Type := mkSpan {
  span_text : pystr;           (* span["text"] *)
  span_size : float;           (* span["size"] *)
  span_flags : Z               (* span["flags"] *)
}.

Record Line : Type := mkLine {
  line_spans : list Span       (* line["spans"] *)
}.

Record Block : Type := mkBlock {
  block_lines : option (list Line);                 (* block["lines"], if present *)
  block_bbox : option (float * float * float * float) (* block["bbox"], if present *)
}.

Record Page : Type := mkPage {
  page_height : float;         (* page.rect.height *)
  page_blocks : list Block     (* page.get_text("dict")["blocks"] *)
}.

(** block.get("bbox", [0, 0, 0, 0])[1] *)
Definition block_y_top (blk : Block) : float :=
  match block_bbox blk with
  | Some (_, y0, _, _) => y0
  | None => 0%float
  end.

(** block_y_top < page_height * 0.10 *)
Definition in_header (height y : float) : bool :=
  PrimFloat.ltb y (PrimFloat.mul height 0.10%float).

(** block_y_top > page_height * 0.85 *)
Definition in_footer (height y : float) : bool :=
  PrimFloat.ltb (PrimFloat.mul height 0.85%float) y.

(** The truth value of
    [font_size < 8 or (flags & 1) or (text.strip().isdigit() and font_size < 10)]. *)
Definition is_superscript (s : Span) : bool :=
  PrimFloat.ltb (span_size s) 8%float
  || negb (Z.eqb (Z.land (span_flags s) 1) 0)
  || (isdigit (strip (span_text s)) && PrimFloat.ltb (span_size s) 10%float).

(** The test guarding [continue] in the span loop. *)
Definition span_skipped (s : Span) : bool :=
  is_superscript s && isdigit (strip (span_text s)).

(** The span loop: [line_text] after the spans of one line. *)
Definition line_text (l : Line) : pystr :=
  fold_left (fun acc s => if span_skipped s then acc else acc ++ span_text s)
            (line_spans l) [].

(** The test guarding [continue] after the span loop:
    [stripped.isdigit() and len(stripped) <= 3]. *)
Definition is_page_number (stripped : pystr) : bool :=
  isdigit stripped && Nat.leb (List.length stripped) 3.

(** The line loop: [block_line_texts] after the lines of one block. *)
Definition block_line_texts (lines : list Line) : list pystr :=
  fold_left (fun acc l =>
               let stripped := strip (line_text l) in
               if is_page_number stripped then acc
               else match stripped with
                    | [] => acc
                    | _ => acc ++ [stripped]
                    end)
            lines [].

(** The body of the block loop: [full_text] after one block. *)
Definition process_block (height : float) (full_text : list pystr)
  (blk : Block) : list pystr :=
  match block_lines blk with
  | None => full_text                                   (* no "lines" *)
  | Some lines =>
      if in_header height (block_y_top blk) then full_text
      else if in_footer height (block_y_top blk) then full_text
      else match block_line_texts lines with
           | [] => full_text
           | texts => full_text ++ [str_join [SP] texts]
           end
  end.

Definition process_page (full_text : list pystr) (p : Page) : list pystr :=
  fold_left (process_block (page_height p)) (page_blocks p) full_text.

Definition extract_text_without_footnotes (doc : list Page) : pystr :=
  str_join [LF; LF] (fold_left process_page doc []).

End Extractor.

(* ================================================================== *)
(** ** create_word_document

    The document sink is modelled by the state it accumulates: the font
    of the Normal style and the paragraphs added so far. *)

Module Writer.

Record Document : Type := mkDocument {
  font_name : pystr;
  font_size : N;                       (* points *)
  paragraphs : list pystr
}.

(** Document() *)
Definition new_document : Document :=
  {| font_name := []; font_size := 0; paragraphs := [] |}.

Definition set_style (name : pystr) (size : N) (d : Document) : Document :=
  {| font_name := name; font_size := size; paragraphs := paragraphs d |}.

(** doc.add_paragraph(para_text) *)
Definition add_paragraph (t : pystr) (d : Document) : Document :=
  {| font_name := font_name d; font_size := font_size d;
     paragraphs := paragraphs d ++ [t] |}.

(** The text of one paragraph: line breaks become spaces, runs of spaces
    one space, and the ends are stripped. *)
Definition para_text (para : pystr) : result pystr :=
  t <- re_sub false Normalizer.pat_spaces (literal [SP])
              (str_replace [LF] [SP] para) ;;
  Ok (strip t).

(** The body of the paragraph loop. *)
Definition write_para (d : result Document) (para : pystr) : result Document :=
  d <- d ;;
  t <- para_text para ;;
  match t with
  | [] => Ok d
  | _ => Ok (add_paragraph t d)
  end.

(** The document handed to [doc.save]. *)
Definition create_word_document (text : pystr) : result Document :=
  let doc := set_style (py "Times New Roman") 12 new_document in
  fold_left write_para (str_split [LF; LF] text) (Ok doc).

End Writer.

(* ================================================================== *)
(** ** Auxiliary definitions for the statements and proofs *)

(** The least number of characters a match of the pattern consumes. *)
Fixpoint min_len (r : regex) : nat :=
  match r with
  | Cls _ _ => 1
  | Cat r1 r2 => min_len r1 + min_len r2
  | Or r1 r2 => Nat.min (min_len r1) (min_len r2)
  | Repeat _ _ lo _ => lo
  | Group _ r1 => min_len r1
  | _ => 0
  end.

(** [pat] occurs in [s] as a block of consecutive characters. *)
Definition occurs (pat s : pystr) : Prop :=
  exists u v, s = u ++ pat ++ v.

Definition all_space (s : pystr) : bool := forallb is_space s.

(** The code points matched by the class [a-záéíóöőúüű] under
    IGNORECASE: both cases of the letters, and the four code points whose
    lower case (or case-fixed companion) is i, s or k: capital I with dot
    (U+0130), dotless i (U+0131), long s (U+017F) and the Kelvin sign
    (U+212A). *)
Definition letter_ranges : list (N * N) :=
  [(65, 90); (97, 122); (193, 193); (201, 201); (205, 205); (211, 211);
   (214, 214); (218, 218); (220, 220); (225, 225); (233, 233); (237, 237);
   (243, 243); (246, 246); (250, 250); (252, 252); (304, 305); (336, 337);
   (368, 369); (383, 383); (8490, 8490)].

Definition is_letter (c : codepoint) : bool := in_ranges c letter_ranges.

(** The characters of the class [.,;:!?)]. *)
Definition is_closing (c : codepoint) : bool :=
  existsb (N.eqb c) [46; 44; 59; 58; 33; 63; 41].

Definition disjoint_ranges (rs1 rs2 : list (N * N)) : bool :=
  forallb (fun r1 => forallb (fun r2 => (snd r1 <? fst r2) || (snd r2 <? fst r1)) rs2) rs1.

(** No whitespace at either end. *)
Definition trimmed (s : pystr) : Prop :=
  (forall c s', s = c :: s' -> is_space c = false) /\
  (forall s' c, s = s' ++ [c] -> is_space c = false).

(** The length of the longest prefix whose characters pass the test. *)
Fixpoint run (p : codepoint -> bool) (s : pystr) : nat :=
  match s with
  | c :: s' => if p c then S (run p s') else O
  | [] => O
  end.

(** The bound of a repetition. *)
Definition within (hi : option nat) (m : nat) : Prop :=
  match hi with
  | None => True
  | Some h => (m <= h)%nat
  end.

Definition is_sp (c : codepoint) : bool := c =? SP.
Definition is_lf (c : codepoint) : bool := c =? LF.

(** No two spaces in a row. *)
Fixpoint no_sp2 (s : pystr) : bool :=
  match s with
  | [] => true
  | c :: s' =>
      match s' with
      | [] => true
      | c' :: _ => negb (is_sp c && is_sp c') && no_sp2 s'
      end
  end.

(** No three line breaks in a row in [s], when [k] line breaks come
    right before it. *)
Fixpoint runs_le2 (k : nat) (s : pystr) : bool :=
  match s with
  | [] => true
  | c :: s' => if is_lf c then Nat.ltb k 2 && runs_le2 (S k) s'
               else runs_le2 O s'
  end.

(** Reading a text from the left: [seen] tells whether the current stretch
    of whitespace already holds two line breaks in a row, [prev] whether
    the previous character is a line break.  The check fails when a second
    pair of line breaks completes in one stretch of whitespace: three line
    breaks in a row, or a blank paragraph. *)
Fixpoint para_ok (seen prev : bool) (s : pystr) : bool :=
  match s with
  | [] => true
  | c :: s' =>
      if is_lf c then
        if prev then negb seen && para_ok true true s'
        else para_ok seen true s'
      else if is_space c then para_ok seen false s'
      else para_ok false false s'
  end.

(** Two line breaks in a row come after some leading whitespace. *)
Definition pair_ahead (s : pystr) : Prop :=
  exists w rest, s = w ++ LF :: LF :: rest /\ all_space w = true.

(** The number of line breaks right before the position in a state of
    [para_ok]. *)
Definition lf_before (seen prev : bool) : nat :=
  if prev then (if seen then 2 else 1)%nat else O.

(** What the text ahead must satisfy when the result so far is in state
    [(seen, prev)]. *)
Definition ahead_ok (seen prev : bool) (a : pystr) : Prop :=
  runs_le2 (lf_before seen prev) a = true /\
  (seen = true -> ~ pair_ahead a) /\
  (seen = false -> prev = true -> forall a', a = LF :: a' -> ~ pair_ahead a').

(** Where a group of [g'] comes from: it was in [g] already or it is made
    of characters of the text [a]. *)
Definition captured_from (a : pystr) (g g' : groups) : Prop :=
  forall i s, In (i, s) g' -> In (i, s) g \/ incl s a.


(** The ends of a segment of [str.split]: the text ends there or a
    separator follows (comes before). *)
Definition seg_end (v : pystr) : Prop := v = [] \/ exists v', v = LF :: LF :: v'.
Definition seg_start (u : pystr) : Prop := u = [] \/ exists u', u = u' ++ [LF; LF].

(** The continuation of the repetition in [pat_blank]: two line breaks. *)
Definition after_blank : cont :=
  fun b a n g =>
    rx false (Cat (chr LF) (chr LF)) b a n g (fun _ _ n' g' => Some (n', g')).


(** The text after the first six rules, and after the first nine. *)
Definition after_rule6 (text : pystr) : pystr :=
  sub false Normalizer.pat_marker Normalizer.tpl_marker []
    (sub true Normalizer.pat_fused (literal []) []
       (sub true Normalizer.pat_citation (literal []) []
          (sub true Normalizer.pat_amend (literal []) []
             (sub true Normalizer.pat_see (literal []) [] (Normalizer.rule1 text))))).

Definition after_rule9 (text : pystr) : pystr :=
  sub false Normalizer.pat_blank (literal [LF; LF]) []
    (sub false Normalizer.pat_breaks (literal [LF; LF]) []
       (sub false Normalizer.pat_spaces (literal [SP]) [] (after_rule6 text))).


(* ------------------------------------------------------------------ *)
(** *** Rule 5 in the words of the specification *)

(** The lower-case letters written in the class [a-záéíóöőúüű]. *)
Definition is_lower_letter (c : codepoint) : bool :=
  in_ranges c [(97, 122); (225, 225); (233, 233); (237, 237); (243, 243);
               (246, 246); (250, 250); (252, 252); (337, 337); (369, 369)].

(** What may come right after a deleted number: whitespace, closing
    punctuation, or the end of the text. *)
Definition follows_ok (a : pystr) : bool :=
  match a with
  | [] => true
  | c :: _ => is_space c || is_closing c
  end.

(** The length of the number rule 5 deletes at a position, if any: the
    character before is a letter, the decimal digits from here on are one
    to three, and what follows them is admissible. *)
Definition fused_len (b a : pystr) : option nat :=
  match b with
  | c :: _ =>
      if is_letter c
      then let m := run is_decimal a in
           if Nat.leb 1 m && Nat.leb m 3 && follows_ok (skipn m a)
           then Some m else None
      else None
  | [] => None
  end.

Definition is_letter_before (prev : option codepoint) : bool :=
  match prev with
  | Some c => is_letter c
  | None => false
  end.

(** The run of digits starting here has at most three digits and is
    followed by whitespace, closing punctuation or the end. *)
Definition run_ok (a : pystr) : bool :=
  Nat.leb (run is_decimal a) 3 && follows_ok (skipn (run is_decimal a) a).

(** Reading the text from the left and dropping every one-to-three digit
    number that comes right after a letter and right before whitespace,
    closing punctuation or the end; [prev] is the previous character of the
    text, [dropping] tells whether the current digits belong to a number
    being dropped. *)
Fixpoint drop_fused (prev : option codepoint) (dropping : bool) (a : pystr)
  : pystr :=
  match a with
  | [] => []
  | c :: a' =>
      if is_decimal c then
        if dropping || (is_letter_before prev && run_ok a)
        then drop_fused (Some c) true a'
        else c :: drop_fused (Some c) false a'
      else c :: drop_fused (Some c) false a'
  end.

(** The last character of [s], or [d] when [s] is empty. *)
Definition last_or (d : option codepoint) (s : pystr) : option codepoint :=
  match rev s with
  | c :: _ => Some c
  | [] => d
  end.

(* ------------------------------------------------------------------ *)
(** *** The extractor, loop by loop, as maps and filters *)

Module ExtractorSpec.
Import Extractor.

(** The text of a line from the spans that are not skipped. *)
Definition kept_text (l : Line) : pystr :=
  List.concat (map span_text (filter (fun s => negb (span_skipped s)) (line_spans l))).

(** What a line adds to [block_line_texts]. *)
Definition line_entry (l : Line) : list pystr :=
  let stripped := strip (line_text l) in
  if is_page_number stripped then []
  else match stripped with
       | [] => []
       | _ => [stripped]
       end.

(** The paragraph of a block from its lines alone. *)
Definition block_text (blk : Block) : list pystr :=
  match block_lines blk with
  | None => []
  | Some lines =>
      match flat_map line_entry lines with
      | [] => []
      | texts => [str_join [SP] texts]
      end
  end.

(** The block lies in the header or in the footer region of its page. *)
Definition excluded (height : float) (blk : Block) : bool :=
  in_header height (block_y_top blk) || in_footer height (block_y_top blk).

(** What a block adds to [full_text]. *)
Definition block_contribution (height : float) (blk : Block) : list pystr :=
  if excluded height blk then [] else block_text blk.

End ExtractorSpec.

Definition nonempty (s : pystr) : bool :=
  match s with
  | [] => false
  | _ => true
  end.

(** The text the writer makes of one segment. *)
Definition segment_text (para : pystr) : pystr :=
  strip (sub false Normalizer.pat_spaces (literal [SP]) []
             (str_replace [LF] [SP] para)).

(** The paragraphs the writer adds for a list of segments. *)
Definition written (segs : list pystr) : list pystr :=
  filter nonempty (map segment_text segs).

(** The text starts (ends) with a decimal digit. *)
Definition starts_decimal (s : pystr) : bool :=
  match s with
  | c :: _ => is_decimal c
  | [] => false
  end.

Definition ends_decimal (s : pystr) : bool := starts_decimal (rev s).

(** A page 100 units high with one block whose top lies at 10, a tenth of
    the height, holding one line of ordinary text. *)
Definition boundary_page : Extractor.Page :=
  Extractor.mkPage 100%float
    [Extractor.mkBlock
       (Some [Extractor.mkLine [Extractor.mkSpan (py "Hello") 12%float 0%Z]])
       (Some (0, 10, 50, 20)%float)].

(** The same page with the block at a twentieth of the height (scenario B
    of the specification), and with the block at nine tenths of it. *)
Definition header_page : Extractor.Page :=
  Extractor.mkPage 100%float
    [Extractor.mkBlock
       (Some [Extractor.mkLine [Extractor.mkSpan (py "Hello") 12%float 0%Z]])
       (Some (0, 5, 50, 15)%float)].

Definition footer_page : Extractor.Page :=
  Extractor.mkPage 100%float
    [Extractor.mkBlock
       (Some [Extractor.mkLine [Extractor.mkSpan (py "Hello") 12%float 0%Z]])
       (Some (0, 90, 50, 95)%float)].

(** The pattern has no look-behind. *)
Fixpoint no_behind (r : regex) : bool :=
  match r with
  | Behind _ _ => false
  | Cat r1 r2 | Or r1 r2 => no_behind r1 && no_behind r2
  | Maybe r1 | Group _ r1 | Ahead r1 => no_behind r1
  | _ => true
  end.

Unset Implicit Arguments.

(* ================================================================== *)
(** * Properties *)

(** ** The pattern engine *)

Lemma captured_refl a g : captured_from a g g.
Proof. intros i s H; now left. Qed.

Lemma captured_trans w a' g g1 g2 :
  captured_from (w ++ a') g g1 -> captured_from a' g1 g2 ->
  captured_from (w ++ a') g g2.
Proof.
  intros H1 H2 i s Hin.
  destruct (H2 i s Hin) as [H | H].
  - apply H1, H.
  - right. intros c Hc. apply in_or_app. right. apply H, Hc.
Qed.

(** A successful repetition hands some prefix [w] of the text, made of
    characters passing the test, to its continuation. *)
Lemma rep_sound p lo hi k res :
  forall a cnt b n g,
    rep p lo hi cnt b a n g k = Some res ->
    exists w a',
      a = w ++ a' /\ forallb p w = true /\ (lo <= cnt + List.length w)%nat /\
      k (rev w ++ b) a' (n + List.length w)%nat g = Some res.
Proof.
  induction a as [| c a IH]; intros cnt b n g H; simpl in H.
  - destruct (Nat.leb lo cnt) eqn:E; [| discriminate].
    exists [], []. simpl. rewrite ?Nat.add_0_r.
    apply Nat.leb_le in E. repeat split; auto; lia.
  - assert (Hstop : (if Nat.leb lo cnt then k b (c :: a) n g else None) = Some res ->
                    exists w a', c :: a = w ++ a' /\ forallb p w = true /\
                      (lo <= cnt + List.length w)%nat /\
                      k (rev w ++ b) a' (n + List.length w)%nat g = Some res).
    { intros Hs. destruct (Nat.leb lo cnt) eqn:E; [| discriminate].
      exists [], (c :: a). simpl. rewrite ?Nat.add_0_r.
      apply Nat.leb_le in E. repeat split; auto; lia. }
    destruct (p c && below hi cnt) eqn:Epc; [| now apply Hstop].
    destruct (rep p lo hi (S cnt) (c :: b) a (S n) g k) eqn:Er; [| now apply Hstop].
    inversion H; subst.
    destruct (IH _ _ _ _ Er) as (w & a' & -> & Hw & Hlo & Hk).
    apply andb_true_iff in Epc as [Hp _].
    exists (c :: w), a'. simpl. rewrite Hp, Hw. repeat split; auto; try lia.
    rewrite <- app_assoc. simpl.
    replace (n + S (List.length w))%nat with (S n + List.length w)%nat by lia.
    exact Hk.
Qed.

(** A successful match of [r] hands a prefix [w] of the text, at least
    [min_len r] long, to its continuation; the groups it adds are pieces
    of the text. *)
Lemma rx_sound ic r :
  forall b a n g k res,
    rx ic r b a n g k = Some res ->
    exists w a' g',
      a = w ++ a' /\ (min_len r <= List.length w)%nat /\
      captured_from a g g' /\
      k (rev w ++ b) a' (n + List.length w)%nat g' = Some res.
Proof.
  induction r as [| neg items | r1 IH1 r2 IH2 | r1 IH1 r2 IH2 | r1 IH1
                  | neg items lo hi | i r1 IH1 | r1 IH1 | neg items |];
    intros b a n g k res H; simpl in H.
  - exists [], a, g. simpl. rewrite ?Nat.add_0_r.
    repeat split; auto using captured_refl.
  - destruct a as [| c a]; [discriminate |].
    destruct (set_match ic neg items c); [| discriminate].
    exists [c], a, g. simpl. replace (n + 1)%nat with (S n) by lia.
    repeat split; auto using captured_refl.
  - destruct (IH1 _ _ _ _ _ _ H) as (w1 & a1 & g1 & -> & Hm1 & Hc1 & Hk1).
    destruct (IH2 _ _ _ _ _ _ Hk1) as (w2 & a2 & g2 & -> & Hm2 & Hc2 & Hk2).
    exists (w1 ++ w2), a2, g2. rewrite length_app, rev_app_distr, <- !app_assoc.
    simpl. repeat split; auto; try lia.
    + eapply captured_trans; eauto.
    + rewrite Nat.add_assoc. exact Hk2.
  - destruct (rx ic r1 b a n g k) eqn:E1.
    + inversion H; subst.
      destruct (IH1 _ _ _ _ _ _ E1) as (w & a' & g' & ? & ? & ? & ?).
      exists w, a', g'. simpl. repeat split; auto; lia.
    + destruct (IH2 _ _ _ _ _ _ H) as (w & a' & g' & ? & ? & ? & ?).
      exists w, a', g'. simpl. repeat split; auto; lia.
  - destruct (rx ic r1 b a n g k) eqn:E1.
    + inversion H; subst.
      destruct (IH1 _ _ _ _ _ _ E1) as (w & a' & g' & ? & ? & ? & ?).
      exists w, a', g'. simpl. repeat split; auto; lia.
    + exists [], a, g. simpl. rewrite ?Nat.add_0_r.
      repeat split; auto using captured_refl.
  - destruct (rep_sound _ _ _ _ _ _ _ _ _ _ H) as (w & a' & -> & Hw & Hlo & Hk).
    exists w, a', g. simpl. repeat split; auto using captured_refl.
  - destruct (IH1 _ _ _ _ _ _ H) as (w & a' & g' & -> & Hm & Hc & Hk).
    exists w, a', ((i, w) :: g'). simpl. repeat split; auto.
    + intros j s [Hjs | Hjs].
      * inversion Hjs; subst. right. intros c Hc'. apply in_or_app. now left.
      * apply Hc, Hjs.
    + replace (n + List.length w - n)%nat with (List.length w) in Hk by lia.
      rewrite firstn_app, firstn_all, Nat.sub_diag in Hk. simpl in Hk.
      rewrite app_nil_r in Hk. exact Hk.
  - destruct (rx ic r1 b a n g (fun _ _ _ g' => Some (O, g'))) as [[z g1] |] eqn:E1;
      [| discriminate].
    destruct (IH1 _ _ _ _ _ _ E1) as (w & a' & g' & -> & Hm & Hc & Hk).
    inversion Hk; subst.
    exists [], (w ++ a'), g1. simpl. rewrite ?Nat.add_0_r. repeat split; auto; lia.
  - destruct b as [| c b]; [discriminate |].
    destruct (set_match ic neg items c); [| discriminate].
    exists [], a, g. simpl. rewrite ?Nat.add_0_r.
    repeat split; auto using captured_refl.
  - assert (Hk : k b a n g = Some res).
    { destruct a as [| c [| c' a]]; auto; [| discriminate].
      destruct (c =? LF); [auto | discriminate]. }
    exists [], a, g. simpl. rewrite ?Nat.add_0_r.
    repeat split; auto using captured_refl.
Qed.

(** What a match attempt returns: the length of a prefix of the text, no
    shorter than [min_len], and groups cut from the text. *)
Lemma match_at_sound ic r adv b a n g :
  match_at ic r adv b a = Some (n, g) ->
  (min_len r <= n <= List.length a)%nat /\
  (forall i s, In (i, s) g -> incl s a) /\
  (adv = true -> n <> O).
Proof.
  unfold match_at. intros H.
  destruct (rx_sound _ _ _ _ _ _ _ _ H) as (w & a' & g' & -> & Hm & Hc & Hk).
  simpl in Hk.
  destruct (adv && Nat.eqb (List.length w) 0) eqn:E; [discriminate |].
  inversion Hk; subst. rewrite length_app. repeat split; try lia.
  - intros i s Hin. destruct (Hc i s Hin) as [[] | Hs]. exact Hs.
  - intros ->. simpl in E. apply Nat.eqb_neq in E. exact E.
Qed.

(** ** The loop of re.sub *)

Section SubFacts.
Variable ic : bool.
Variable r : regex.
Variable t : template.

Lemma group_lookup_in i (g : groups) s :
  group_lookup i g = Some s -> In (i, s) g.
Proof.
  induction g as [| [j s'] g IH]; simpl; [discriminate |].
  destruct (Nat.eqb i j) eqn:Ej.
  - apply Nat.eqb_eq in Ej. intros E. inversion E; subst. left; reflexivity.
  - intros E. right. apply IH; assumption.
Qed.

Lemma expand_chars whole g c :
  In c (expand t whole g) ->
  In (TChar c) t \/ In c whole \/ exists i s, In (i, s) g /\ In c s.
Proof.
  unfold expand. intros H. apply in_flat_map in H as (it & Hit & Hc).
  destruct it as [c' | [| i]].
  - destruct Hc as [-> | []]. left; assumption.
  - right; left; assumption.
  - destruct (group_lookup (S i) g) as [s |] eqn:E; [| destruct Hc].
    right; right. exists (S i), s. split; auto.
    now apply group_lookup_in.
Qed.

Lemma expand_match_chars adv b a n g c :
  match_at ic r adv b a = Some (n, g) ->
  In c (expand t (firstn n a) g) -> In (TChar c) t \/ In c a.
Proof.
  intros Hm Hc. apply match_at_sound in Hm as (_ & Hg & _).
  apply expand_chars in Hc as [H | [H | (i & s & His & H)]]; auto.
  - right. rewrite <- (firstn_skipn n a). apply in_or_app. left; assumption.
  - right. eapply Hg; eauto.
Qed.

(** Every character of the result comes from the text or is written in
    the template. *)
Lemma sub_loop_chars c :
  forall a b skip,
    In c (sub_loop ic r t b a skip) -> In c a \/ In (TChar c) t.
Proof.
  induction a as [| x a IH]; intros b skip H; simpl in H.
  - destruct skip; [| destruct H].
    destruct (match_at ic r false b []) as [[n g] |] eqn:E; [| destruct H].
    replace [] with (firstn n (@nil codepoint)) in H at 1 by now destruct n.
    destruct (expand_match_chars _ _ _ _ _ _ E H); auto.
  - assert (Hrec : forall j, In c (sub_loop ic r t (x :: b) a j) ->
                             In c (x :: a) \/ In (TChar c) t).
    { intros j Hj. destruct (IH _ _ Hj); auto. left. right; assumption. }
    assert (Hcopy : In c (x :: sub_loop ic r t (x :: b) a 0) ->
                    In c (x :: a) \/ In (TChar c) t).
    { intros [-> | Hj]; [left; left; reflexivity | eauto]. }
    destruct skip as [| j]; [| eauto].
    destruct (match_at ic r false b (x :: a)) as [[[| j] g] |] eqn:E; auto.
    + apply in_app_or in H as [H | H].
      * replace [] with (firstn 0 (x :: a)) in H by reflexivity.
        destruct (expand_match_chars _ _ _ _ _ _ E H); auto.
      * destruct (match_at ic r true b (x :: a)) as [[[| j] g'] |] eqn:E'; auto.
        apply in_app_or in H as [H | H]; eauto.
        destruct (expand_match_chars _ _ _ _ _ _ E' H); auto.
    + apply in_app_or in H as [H | H]; eauto.
      destruct (expand_match_chars _ _ _ _ _ _ E H); auto.
Qed.

(** Passing over the rest of a match. *)
Lemma sub_loop_skip :
  forall m b rest,
    sub_loop ic r t b (m ++ rest) (List.length m)
    = sub_loop ic r t (rev m ++ b) rest 0.
Proof.
  induction m as [| c m IH]; intros b rest; simpl.
  - destruct rest; reflexivity.
  - rewrite IH, <- app_assoc. reflexivity.
Qed.

Local Notation "'sub'" := (sub ic r t).

Hypothesis Hmin : (1 <= min_len r)%nat.

Lemma sub_nil b : sub b [] = [].
Proof.
  unfold sub; simpl.
  destruct (match_at ic r false b []) as [[n g] |] eqn:E; auto.
  apply match_at_sound in E as ((H1 & H2) & _). simpl in H2. lia.
Qed.

Lemma sub_copy b c a :
  match_at ic r false b (c :: a) = None ->
  sub b (c :: a) = c :: sub (c :: b) a.
Proof. unfold sub; simpl. now intros ->. Qed.

Lemma sub_match b m rest g :
  match_at ic r false b (m ++ rest) = Some (List.length m, g) ->
  sub b (m ++ rest) = expand t m g ++ sub (rev m ++ b) rest.
Proof.
  intros E. pose proof (match_at_sound _ _ _ _ _ _ _ E) as ((H1 & _) & _).
  destruct m as [| c m]; [simpl in H1; lia |].
  unfold sub. simpl app. simpl sub_loop. simpl in E. rewrite E.
  simpl List.length. cbv iota beta.
  rewrite sub_loop_skip. simpl firstn. rewrite firstn_app, firstn_all, Nat.sub_diag.
  simpl. rewrite app_nil_r, <- app_assoc. reflexivity.
Qed.

(** The shape of a successful attempt. *)
Lemma match_at_split adv b a n g :
  match_at ic r adv b a = Some (n, g) ->
  exists m rest, a = m ++ rest /\ List.length m = n /\ m <> [].
Proof.
  intros E. apply match_at_sound in E as ((H1 & H2) & _).
  exists (firstn n a), (skipn n a). rewrite firstn_skipn, firstn_length_le by lia.
  repeat split; auto. intros H. apply (f_equal (@List.length _)) in H.
  rewrite firstn_length_le in H by lia. simpl in H. lia.
Qed.

(** Induction along the loop: the end of the text, a position where the
    search fails and the character is copied, a position where it
    succeeds and the match is replaced. *)
Lemma sub_ind (P : pystr -> pystr -> pystr -> Prop) :
  (forall b, P b [] []) ->
  (forall b c a,
      match_at ic r false b (c :: a) = None ->
      P (c :: b) a (sub (c :: b) a) ->
      P b (c :: a) (c :: sub (c :: b) a)) ->
  (forall b m rest g,
      m <> [] ->
      match_at ic r false b (m ++ rest) = Some (List.length m, g) ->
      P (rev m ++ b) rest (sub (rev m ++ b) rest) ->
      P b (m ++ rest) (expand t m g ++ sub (rev m ++ b) rest)) ->
  forall b a, P b a (sub b a).
Proof.
  intros Hnil Hcopy Hmatch b a.
  remember (List.length a) as len eqn:Hlen.
  revert b a Hlen. induction len as [len IH] using lt_wf_ind.
  intros b a Hlen.
  destruct (match_at ic r false b a) as [[n g] |] eqn:E.
  - destruct (match_at_split _ _ _ _ _ E) as (m & rest & -> & <- & Hne).
    rewrite (sub_match _ _ _ _ E). apply Hmatch; auto.
    apply (IH (List.length rest)); auto.
    rewrite Hlen, length_app. destruct m; [congruence | simpl; lia].
  - destruct a as [| c a].
    + rewrite sub_nil. apply Hnil.
    + rewrite (sub_copy _ _ _ E). apply Hcopy; auto.
      apply (IH (List.length a)); auto. rewrite Hlen. simpl. lia.
Qed.

End SubFacts.

(** ** Character tables *)

Lemma in_ranges_true c rs :
  in_ranges c rs = true <-> exists lo hi, In (lo, hi) rs /\ lo <= c <= hi.
Proof.
  unfold in_ranges. rewrite existsb_exists. split.
  - intros ([lo hi] & Hin & H). simpl in H.
    apply andb_true_iff in H as [H1 H2].
    apply N.leb_le in H1, H2. exists lo, hi. auto.
  - intros (lo & hi & Hin & H1 & H2). exists (lo, hi). split; auto.
    simpl. apply andb_true_iff. split; apply N.leb_le; assumption.
Qed.

Lemma disjoint_ranges_sound rs1 rs2 c :
  disjoint_ranges rs1 rs2 = true ->
  in_ranges c rs1 = true -> in_ranges c rs2 = false.
Proof.
  intros Hd H1. destruct (in_ranges c rs2) eqn:H2; auto.
  apply in_ranges_true in H1 as (l1 & h1 & Hin1 & Hl1 & Hh1).
  apply in_ranges_true in H2 as (l2 & h2 & Hin2 & Hl2 & Hh2).
  unfold disjoint_ranges in Hd. rewrite forallb_forall in Hd.
  specialize (Hd _ Hin1). rewrite forallb_forall in Hd.
  specialize (Hd _ Hin2). simpl in Hd.
  apply orb_true_iff in Hd as [Hd | Hd]; apply N.ltb_lt in Hd; lia.
Qed.

Lemma in_codepoints c lo hi : lo <= c <= hi -> In c (codepoints lo hi).
Proof.
  intros [H1 H2]. unfold codepoints. apply in_map_iff.
  exists (N.to_nat (c - lo)). split.
  - rewrite N2Nat.id. lia.
  - apply in_seq. lia.
Qed.

Lemma codepoints_bound c lo hi : In c (codepoints lo hi) -> lo <= c <= hi.
Proof.
  unfold codepoints. intros H. apply in_map_iff in H as (i & <- & Hi).
  apply in_seq in Hi. lia.
Qed.

(** Two character tests agree everywhere when they agree up to a bound
    (checked by evaluation) and beyond it. *)
Lemma agree_by_bound (f g : codepoint -> bool) (M : N) :
  forallb (fun c => Bool.eqb (f c) (g c)) (codepoints 0 M) = true ->
  (forall c, M < c -> f c = g c) ->
  forall c, f c = g c.
Proof.
  intros Hlow Hhigh c. destruct (N.ltb M c) eqn:E.
  - apply Hhigh. now apply N.ltb_lt.
  - apply N.ltb_ge in E. rewrite forallb_forall in Hlow.
    apply Bool.eqb_prop, Hlow, in_codepoints. lia.
Qed.

Lemma tolower_high c : 8491 < c -> unicode_tolower c = c.
Proof.
  intros H. unfold unicode_tolower.
  repeat match goal with
         | |- context [N.leb ?x ?y] => destruct (N.leb_spec x y)
         | |- context [N.eqb ?x ?y] => destruct (N.eqb_spec x y)
         end; simpl; try lia; reflexivity.
Qed.

Lemma tolower_bound l : l <= 8491 -> unicode_tolower l <= 8491.
Proof.
  intros H. unfold unicode_tolower.
  repeat match goal with
         | |- context [N.leb ?x ?y] => destruct (N.leb_spec x y)
         | |- context [N.eqb ?x ?y] => destruct (N.eqb_spec x y)
         end; simpl; lia.
Qed.

Lemma casefix_bound x y : In y (casefix x) -> y <= 8491.
Proof.
  unfold casefix.
  repeat match goal with
         | |- context [N.eqb ?x ?y] => destruct (N.eqb_spec x y)
         end; simpl; intros H; repeat destruct H as [H | H]; try lia; destruct H.
Qed.

Lemma lit_match_high l c : l <= 8491 -> 8491 < c -> lit_match true l c = false.
Proof.
  intros Hl Hc. unfold lit_match. rewrite (tolower_high c Hc).
  pose proof (tolower_bound l Hl) as Hb.
  apply orb_false_iff. split.
  - apply N.eqb_neq. lia.
  - destruct (existsb (N.eqb c) (casefix (unicode_tolower l))) eqn:E; auto.
    apply existsb_exists in E as (y & Hy & Hcy).
    apply N.eqb_eq in Hcy. subst y. apply casefix_bound in Hy. lia.
Qed.

Lemma item_match_high it c :
  match it with
  | Lit l => l <= 8491
  | Range lo hi => hi <= 8491
  | _ => False
  end ->
  8491 < c -> item_match true it c = false.
Proof.
  destruct it as [l | lo hi | |]; simpl; intros Hit Hc; try contradiction.
  - now apply lit_match_high.
  - destruct (existsb (fun l => lit_match true l c) (codepoints lo hi)) eqn:E; auto.
    apply existsb_exists in E as (l & Hl & Hm).
    apply codepoints_bound in Hl. rewrite lit_match_high in Hm; [discriminate | lia | auto].
Qed.

Lemma in_ranges_high c rs :
  forallb (fun r => snd r <=? 8491) rs = true -> 8491 < c -> in_ranges c rs = false.
Proof.
  intros Hrs Hc. destruct (in_ranges c rs) eqn:E; auto.
  apply in_ranges_true in E as (lo & hi & Hin & H1 & H2).
  rewrite forallb_forall in Hrs. specialize (Hrs _ Hin). simpl in Hrs.
  apply N.leb_le in Hrs. lia.
Qed.

(** The class of the look-behind of rule 5 is the set [letter_ranges]. *)
Lemma alphabet_letters c :
  set_match true false Normalizer.alphabet c = is_letter c.
Proof.
  revert c. apply (agree_by_bound _ _ 8491).
  - vm_compute. reflexivity.
  - intros c Hc. unfold is_letter. rewrite in_ranges_high by (auto; reflexivity).
    unfold set_match. simpl xorb.
    destruct (existsb (fun it => item_match true it c) Normalizer.alphabet) eqn:E; auto.
    apply existsb_exists in E as (it & Hit & Hm).
    rewrite item_match_high in Hm; [discriminate | | auto].
    vm_compute in Hit.
    repeat (destruct Hit as [<- | Hit]; [simpl; lia |]). destruct Hit.
Qed.

(** The class of closing punctuation has no cased character. *)
Lemma closing_chars c :
  set_match true false Normalizer.closing c = is_closing c.
Proof.
  revert c. apply (agree_by_bound _ _ 8491).
  - vm_compute. reflexivity.
  - intros c Hc. unfold is_closing. simpl.
    repeat match goal with
           | |- context [N.eqb c ?y] => destruct (N.eqb_spec c y); [lia |]
           end.
    unfold set_match. simpl xorb.
    destruct (existsb (fun it => item_match true it c) Normalizer.closing) eqn:E; auto.
    apply existsb_exists in E as (it & Hit & Hm).
    rewrite item_match_high in Hm; [discriminate | | auto].
    vm_compute in Hit.
    repeat (destruct Hit as [<- | Hit]; [simpl; lia |]). destruct Hit.
Qed.

Lemma tolower_decimal c : is_decimal (unicode_tolower c) = is_decimal c.
Proof.
  revert c. apply (agree_by_bound _ _ 8491).
  - vm_compute. reflexivity.
  - intros c Hc. now rewrite tolower_high.
Qed.

Lemma tolower_space c : is_space (unicode_tolower c) = is_space c.
Proof.
  revert c. apply (agree_by_bound _ _ 8491).
  - vm_compute. reflexivity.
  - intros c Hc. now rewrite tolower_high.
Qed.

Lemma set_digit ic c : set_match ic false [CatDigit] c = is_decimal c.
Proof.
  unfold set_match. simpl. rewrite orb_false_r.
  destruct ic; auto using tolower_decimal.
Qed.

Lemma set_space ic c : set_match ic false [CatSpace] c = is_space c.
Proof.
  unfold set_match. simpl. rewrite orb_false_r.
  destruct ic; auto using tolower_space.
Qed.

Lemma set_lit c x : set_match false false [Lit x] c = (c =? x).
Proof. unfold set_match. simpl. now rewrite orb_false_r. Qed.

(** A decimal digit is no whitespace, no letter and no punctuation. *)
Lemma decimal_not_space c : is_decimal c = true -> is_space c = false.
Proof. apply disjoint_ranges_sound. vm_compute. reflexivity. Qed.

Lemma decimal_not_letter c : is_decimal c = true -> is_letter c = false.
Proof. apply disjoint_ranges_sound. vm_compute. reflexivity. Qed.

Lemma decimal_not_closing c : is_decimal c = true -> is_closing c = false.
Proof.
  intros H. unfold is_closing. simpl.
  repeat match goal with
         | |- context [N.eqb c ?y] =>
             destruct (N.eqb_spec c y); [subst c; vm_compute in H; discriminate |]
         end.
  reflexivity.
Qed.

Lemma space_LF : is_space LF = true.
Proof. reflexivity. Qed.

Lemma space_SP : is_space SP = true.
Proof. reflexivity. Qed.

(** None of the ten superscript digits is a decimal digit, whitespace or
    one of the characters the templates write. *)
Lemma superscript_not_template c :
  In c Normalizer.superscript_digits ->
  c <> 40 /\ c <> 41 /\ c <> SP /\ c <> LF.
Proof.
  intros H. vm_compute in H.
  repeat (destruct H as [<- | H]; [repeat split; discriminate |]). destruct H.
Qed.

Arguments N.eqb : simpl never.
Arguments N.leb : simpl never.
Arguments N.ltb : simpl never.

(** ** str methods *)

Lemma app_same_length (m m' r r' : pystr) :
  List.length m = List.length m' -> m ++ r = m' ++ r' -> m = m' /\ r = r'.
Proof.
  revert m'. induction m as [| c m IH]; intros [| c' m'] Hl H; simpl in *;
    try discriminate; auto.
  inversion H; subst. destruct (IH m') as [-> ->]; auto.
Qed.

Lemma occurs_app_l pat s u : occurs pat s -> occurs pat (u ++ s).
Proof.
  intros (x & y & ->). exists (u ++ x), y. now rewrite <- app_assoc.
Qed.

Lemma occurs_app_r pat s v : occurs pat s -> occurs pat (s ++ v).
Proof.
  intros (x & y & ->). exists x, (y ++ v). now rewrite <- !app_assoc.
Qed.

Lemma lstrip_split s :
  exists u, s = u ++ lstrip s /\ all_space u = true.
Proof.
  induction s as [| c s (u & Hu & Hs)]; simpl.
  - exists []. auto.
  - destruct (is_space c) eqn:E.
    + exists (c :: u). simpl. rewrite E, Hs. split; auto. now f_equal.
    + exists []. auto.
Qed.

Lemma lstrip_head s c s' : lstrip s = c :: s' -> is_space c = false.
Proof.
  induction s as [| x s IH]; simpl; [discriminate |].
  destruct (is_space x) eqn:E; auto. intros H. inversion H; subst. exact E.
Qed.

Lemma all_space_rev s : all_space (rev s) = all_space s.
Proof.
  unfold all_space. induction s as [| c s IH]; simpl; auto.
  rewrite forallb_app, IH. simpl. rewrite andb_true_r. apply andb_comm.
Qed.

Lemma rstrip_split s :
  exists v, s = rstrip s ++ v /\ all_space v = true.
Proof.
  unfold rstrip. destruct (lstrip_split (rev s)) as (u & Hu & Hs).
  exists (rev u). split.
  - rewrite <- rev_app_distr, <- Hu. now rewrite rev_involutive.
  - now rewrite all_space_rev.
Qed.

Lemma rstrip_last s s' c : rstrip s = s' ++ [c] -> is_space c = false.
Proof.
  unfold rstrip. intros H. apply (f_equal (@rev _)) in H.
  rewrite rev_involutive, rev_app_distr in H. simpl in H.
  eapply lstrip_head; eauto.
Qed.

Lemma lstrip_all_space s : all_space s = true -> lstrip s = [].
Proof.
  unfold all_space. induction s as [| c s IH]; simpl; auto.
  intros H. apply andb_true_iff in H as [-> H]. auto.
Qed.

Lemma lstrip_fixed s :
  (forall c s', s = c :: s' -> is_space c = false) -> lstrip s = s.
Proof.
  destruct s as [| c s]; simpl; auto. intros H.
  now rewrite (H c s eq_refl).
Qed.

Lemma rstrip_head s c s' :
  (forall x y, s = x :: y -> is_space x = false) ->
  rstrip s = c :: s' -> is_space c = false.
Proof.
  intros Hs H. destruct (rstrip_split s) as (v & Hv & _).
  rewrite H in Hv. simpl in Hv. eapply Hs; eauto.
Qed.

(** [strip] cuts whitespace off both ends and leaves none there. *)
Lemma strip_split s :
  exists u v, s = u ++ strip s ++ v /\ all_space u = true /\ all_space v = true.
Proof.
  unfold strip. destruct (lstrip_split s) as (u & Hu & Hsu).
  destruct (rstrip_split (lstrip s)) as (v & Hv & Hsv).
  exists u, v. repeat split; auto. rewrite <- Hv. exact Hu.
Qed.

Lemma strip_trimmed s : trimmed (strip s).
Proof.
  unfold strip. split.
  - intros c s' H. eapply rstrip_head; eauto. intros x y. apply lstrip_head.
  - intros s' c H. eapply rstrip_last; eauto.
Qed.

Lemma strip_occurs pat s : occurs pat (strip s) -> occurs pat s.
Proof.
  intros H. destruct (strip_split s) as (u & v & Hs & _).
  rewrite Hs. apply occurs_app_l, occurs_app_r, H.
Qed.

Lemma strip_incl s c : In c (strip s) -> In c s.
Proof.
  intros H. destruct (strip_split s) as (u & v & Hs & _).
  rewrite Hs. apply in_or_app. right. apply in_or_app. now left.
Qed.

Lemma all_space_app u v : all_space (u ++ v) = all_space u && all_space v.
Proof. apply forallb_app. Qed.

Lemma strip_nil_iff s : strip s = [] <-> all_space s = true.
Proof.
  split.
  - intros H. destruct (strip_split s) as (u & v & Hs & Hu & Hv).
    rewrite H in Hs. rewrite Hs. simpl. now rewrite all_space_app, Hu, Hv.
  - intros H. unfold strip. now rewrite lstrip_all_space.
Qed.

Lemma trimmed_strip s : trimmed s -> strip s = s.
Proof.
  intros [Hh Hl]. unfold strip. rewrite (lstrip_fixed s Hh).
  unfold rstrip. rewrite lstrip_fixed, rev_involutive; auto.
  intros c s' H. apply (f_equal (@rev _)) in H.
  rewrite rev_involutive in H. simpl in H. eapply Hl; eauto.
Qed.

(** Replacing a one-character string. *)
Lemma replace_loop_char d new s :
  replace_loop [d] new s 0 = flat_map (fun c => if c =? d then new else [c]) s.
Proof.
  induction s as [| c s IH]; simpl; auto.
  rewrite N.eqb_sym. destruct (c =? d); simpl; now rewrite IH.
Qed.

Lemma str_replace_delete d s :
  str_replace [d] [] s = filter (fun c => negb (c =? d)) s.
Proof.
  unfold str_replace. rewrite replace_loop_char.
  induction s as [| c s IH]; simpl; auto.
  destruct (c =? d); simpl; now rewrite IH.
Qed.

Lemma str_replace_char d e s :
  str_replace [d] [e] s = map (fun c => if c =? d then e else c) s.
Proof.
  unfold str_replace. rewrite replace_loop_char.
  induction s as [| c s IH]; simpl; auto.
  destruct (c =? d); simpl; now rewrite IH.
Qed.

(** Rule 1 keeps exactly the characters that are no superscript digit. *)
Lemma rule1_filter text :
  Normalizer.rule1 text
  = filter (fun c => negb (existsb (N.eqb c) Normalizer.superscript_digits)) text.
Proof.
  unfold Normalizer.rule1.
  generalize Normalizer.superscript_digits as ds. intros ds.
  assert (H : forall ds txt,
             fold_left (fun t d => str_replace [d] [] t) ds txt
             = filter (fun c => negb (existsb (N.eqb c) ds)) txt).
  { clear. induction ds as [| d ds IH]; intros txt; cbn [fold_left existsb].
    - induction txt; simpl; auto. now f_equal.
    - rewrite IH, str_replace_delete. clear.
      induction txt as [| c txt IH]; simpl; auto.
      destruct (c =? d) eqn:E; simpl; rewrite IH; auto. }
  apply H.
Qed.

Lemma rule1_no_superscript text c :
  In c (Normalizer.rule1 text) -> ~ In c Normalizer.superscript_digits.
Proof.
  rewrite rule1_filter. intros H Hc. apply filter_In in H as [_ H].
  apply negb_true_iff in H.
  assert (E : existsb (N.eqb c) Normalizer.superscript_digits = true).
  { apply existsb_exists. exists c. split; auto. apply N.eqb_refl. }
  congruence.
Qed.

Lemma rule1_incl text c : In c (Normalizer.rule1 text) -> In c text.
Proof. rewrite rule1_filter. intros H. now apply filter_In in H. Qed.

Lemma rule1_fixed text :
  (forall c, In c text -> ~ In c Normalizer.superscript_digits) ->
  Normalizer.rule1 text = text.
Proof.
  intros H. rewrite rule1_filter.
  set (f := fun c => negb (existsb (N.eqb c) Normalizer.superscript_digits)).
  assert (Hf : forall c, In c text -> f c = true).
  { intros c Hc. unfold f. apply negb_true_iff.
    destruct (existsb (N.eqb c) Normalizer.superscript_digits) eqn:E; auto.
    apply existsb_exists in E as (x & Hx & Hcx). apply N.eqb_eq in Hcx. subst x.
    exfalso. apply (H c); assumption. }
  clearbody f. clear H.
  induction text as [| c text IH]; cbn [filter]; auto.
  rewrite (Hf c) by (left; reflexivity). f_equal. apply IH.
  intros x Hx. apply Hf. right; assumption.
Qed.

(** ** Splitting on the paragraph break *)

Lemma starts_with_break s :
  starts_with [LF; LF] s = true <-> exists s', s = LF :: LF :: s'.
Proof.
  split.
  - destruct s as [| c [| c' s]]; cbn [starts_with]; try discriminate.
    + now rewrite andb_false_r.
    + intros H. apply andb_true_iff in H as [H1 H2].
      apply andb_true_iff in H2 as [H2 _].
      apply N.eqb_eq in H1, H2. subst. eauto.
  - intros (s' & ->). reflexivity.
Qed.

Lemma split_loop_segs seg :
  forall s acc skip,
    (skip <= 1)%nat ->
    In seg (split_loop [LF; LF] acc s skip) ->
    let s0 := match skip with O => s | S _ => tl s end in
    (exists x v, s0 = x ++ v /\ seg = rev acc ++ x /\ seg_end v) \/
    (exists u x v, s0 = u ++ [LF; LF] ++ x ++ v /\ seg = x /\ seg_end v).
Proof.
  induction s as [| c s IH]; intros acc skip Hskip H;
    cbn [split_loop List.length Nat.pred] in H.
  - destruct H as [<- | []]. left. exists [], [].
    destruct skip; simpl; rewrite app_nil_r; repeat split; auto; now left.
  - destruct skip as [| j].
    + destruct (starts_with [LF; LF] (c :: s)) eqn:E.
      * apply starts_with_break in E as (s' & E). inversion E; subst c s.
        simpl. destruct H as [<- | H].
        -- left. exists [], (LF :: LF :: s'). rewrite app_nil_r.
           repeat split; auto. right; eauto.
        -- apply IH in H; [| simpl; lia]. simpl in H. right.
           destruct H as [(x & v & -> & -> & Hv) | (u & x & v & -> & -> & Hv)].
           ++ exists [], x, v. repeat split; auto.
           ++ exists (LF :: LF :: u), x, v. repeat split; auto.
      * apply IH in H; [| lia]. simpl in H. simpl.
        destruct H as [(x & v & -> & -> & Hv) | (u & x & v & -> & -> & Hv)].
        -- left. exists (c :: x), v. simpl. rewrite <- app_assoc. repeat split; auto.
        -- right. exists (c :: u), x, v. repeat split; auto.
    + assert (j = O) by lia. subst j. apply IH in H; [| lia]. exact H.
Qed.

(** ** Greedy repetition *)

Lemma within_eq hi m m' : m = m' -> within hi m -> within hi m'.
Proof. now intros ->. Qed.

Section Greedy.
Variable p : codepoint -> bool.
Variable lo : nat.
Variable hi : option nat.
Variable k : cont.

Lemma within_below cnt : within hi cnt -> below hi cnt = true -> within hi (S cnt).
Proof.
  unfold within, below. destruct hi as [h |]; auto.
  intros _ H. apply Nat.ltb_lt in H. lia.
Qed.

Lemma below_within cnt m : within hi (cnt + S m) -> below hi cnt = true.
Proof.
  unfold within, below. destruct hi as [h |]; auto.
  intros H. apply Nat.ltb_lt. lia.
Qed.

(** A failed repetition: the continuation fails after every admissible
    prefix. *)
Lemma rep_none :
  forall a cnt b n g,
    rep p lo hi cnt b a n g k = None ->
    forall w a',
      a = w ++ a' -> forallb p w = true ->
      (lo <= cnt + List.length w)%nat -> within hi (cnt + List.length w) ->
      k (rev w ++ b) a' (n + List.length w)%nat g = None.
Proof.
  induction a as [| c a IH]; intros cnt b n g H w a' Ha Hw Hlo Hhi; simpl in H.
  - destruct w; [| discriminate]. simpl in *. subst a'.
    rewrite Nat.add_0_r in *. apply Nat.leb_le in Hlo. now rewrite Hlo in H.
  - assert (Hstop : (if Nat.leb lo cnt then k b (c :: a) n g else None) = None).
    { destruct (p c && below hi cnt); auto.
      destruct (rep p lo hi (S cnt) (c :: b) a (S n) g k); [discriminate | auto]. }
    destruct w as [| x w].
    + simpl in *. subst a'. rewrite Nat.add_0_r in *.
      apply Nat.leb_le in Hlo. now rewrite Hlo in Hstop.
    + simpl in Ha. inversion Ha; subst x a. simpl in Hw.
      apply andb_true_iff in Hw as [Hpc Hw]. simpl List.length in *.
      rewrite Hpc, (below_within _ _ Hhi) in H. simpl in H.
      destruct (rep p lo hi (S cnt) (c :: b) (w ++ a') (S n) g k) eqn:E;
        [discriminate |].
      simpl. rewrite <- app_assoc. simpl.
      replace (n + S (List.length w))%nat with (S n + List.length w)%nat by lia.
      eapply IH; eauto; [lia | (eapply within_eq; [| exact Hhi]; simpl; lia)].
Qed.

(** A successful repetition: the continuation succeeds after the
    longest admissible prefix after which it can. *)
Lemma rep_some :
  forall a cnt b n g res,
    within hi cnt ->
    rep p lo hi cnt b a n g k = Some res ->
    exists w a',
      a = w ++ a' /\ forallb p w = true /\
      (lo <= cnt + List.length w)%nat /\ within hi (cnt + List.length w) /\
      k (rev w ++ b) a' (n + List.length w)%nat g = Some res /\
      forall w' a'',
        a = w' ++ a'' -> forallb p w' = true ->
        (List.length w < List.length w')%nat ->
        within hi (cnt + List.length w') ->
        k (rev w' ++ b) a'' (n + List.length w')%nat g = None.
Proof.
  induction a as [| c a IH]; intros cnt b n g res Hcnt H; simpl in H.
  - destruct (Nat.leb lo cnt) eqn:E; [| discriminate].
    apply Nat.leb_le in E. exists [], []. simpl. rewrite !Nat.add_0_r.
    repeat split; auto.
    intros w' a'' Ha. destruct w'; [simpl; lia | discriminate].
  - destruct (p c && below hi cnt) eqn:Epc.
    + apply andb_true_iff in Epc as [Hpc Hb].
      destruct (rep p lo hi (S cnt) (c :: b) a (S n) g k) eqn:E.
      * inversion H; subst p0.
        destruct (IH _ _ _ _ _ (within_below _ Hcnt Hb) E)
          as (w & a' & -> & Hw & Hlo & Hhi & Hk & Hmax).
        exists (c :: w), a'. simpl. rewrite Hpc, Hw.
        replace (n + S (List.length w))%nat with (S n + List.length w)%nat by lia.
        rewrite <- app_assoc. simpl.
        repeat split; auto;
          [lia | eapply within_eq; [| exact Hhi]; simpl; lia |].
        intros w' a'' Ha Hw' Hlen Hhi'.
        destruct w' as [| x w']; [simpl in Hlen; lia |].
        simpl in Ha. inversion Ha; subst x. simpl in Hw'.
        apply andb_true_iff in Hw' as [_ Hw']. simpl. rewrite <- app_assoc. simpl.
        replace (n + S (List.length w'))%nat with (S n + List.length w')%nat by lia.
        apply Hmax; auto; [simpl in Hlen; lia | (eapply within_eq; [| exact Hhi']; simpl; lia)].
      * destruct (Nat.leb lo cnt) eqn:El; [| discriminate].
        apply Nat.leb_le in El. exists [], (c :: a). simpl. rewrite !Nat.add_0_r.
        repeat split; auto.
        intros w' a'' Ha Hw' Hlen Hhi'.
        destruct w' as [| x w']; [simpl in Hlen; lia |].
        simpl in Ha. inversion Ha; subst x. simpl in Hw'.
        apply andb_true_iff in Hw' as [_ Hw']. simpl. rewrite <- app_assoc. simpl.
        replace (n + S (List.length w'))%nat with (S n + List.length w')%nat by lia.
        eapply (rep_none _ _ _ _ _ E); eauto;
          [simpl in *; lia | eapply within_eq; [| exact Hhi']; simpl; lia].
    + destruct (Nat.leb lo cnt) eqn:El; [| discriminate].
      apply Nat.leb_le in El. exists [], (c :: a). simpl. rewrite !Nat.add_0_r.
      repeat split; auto.
      intros w' a'' Ha Hw' Hlen Hhi'.
      destruct w' as [| x w']; [simpl in Hlen; lia |].
      simpl in Ha. inversion Ha; subst x. simpl in Hw'.
      apply andb_true_iff in Hw' as [Hpc _]. simpl in Hhi'.
      rewrite Hpc, (below_within _ _ Hhi') in Epc. discriminate.
Qed.

End Greedy.

(** The longest run as a prefix. *)
Lemma run_split p s :
  exists w s', s = w ++ s' /\ forallb p w = true /\ List.length w = run p s /\
               (forall c s'', s' = c :: s'' -> p c = false).
Proof.
  induction s as [| c s (w & s' & Hs & Hw & Hl & Hn)]; simpl.
  - exists [], []. repeat split; auto. discriminate.
  - destruct (p c) eqn:E.
    + exists (c :: w), s'. simpl. rewrite E, Hw, Hl, Hs. repeat split; auto.
    + exists [], (c :: s). repeat split; auto.
      intros x s'' H. inversion H; subst. exact E.
Qed.

Lemma run_prefix p w s : forallb p w = true -> (List.length w <= run p (w ++ s))%nat.
Proof.
  induction w as [| c w IH]; simpl; intros H; [lia |].
  apply andb_true_iff in H as [-> H]. specialize (IH H). lia.
Qed.

Lemma run_app_stop p w s :
  forallb p w = true -> (forall c s', s = c :: s' -> p c = false) ->
  run p (w ++ s) = List.length w.
Proof.
  induction w as [| c w IH]; simpl; intros H Hs.
  - destruct s as [| x s]; simpl; auto. now rewrite (Hs x s eq_refl).
  - apply andb_true_iff in H as [-> H]. now rewrite IH.
Qed.

(** A repetition at the end of a pattern takes the whole run. *)
Lemma rep_last p lo :
  forall a cnt b n g,
    rep p lo None cnt b a n g (fun _ _ n' g' => Some (n', g'))
    = if Nat.leb lo (cnt + run p a) then Some ((n + run p a)%nat, g) else None.
Proof.
  induction a as [| c a IH]; intros cnt b n g; simpl.
  - now rewrite !Nat.add_0_r.
  - destruct (p c); simpl.
    + rewrite IH.
      replace (S cnt + run p a)%nat with (cnt + S (run p a))%nat by lia.
      replace (S n + run p a)%nat with (n + S (run p a))%nat by lia.
      destruct (Nat.leb lo (cnt + S (run p a))) eqn:E; auto.
      apply Nat.leb_gt in E.
      destruct (Nat.leb lo cnt) eqn:E'; auto. apply Nat.leb_le in E'. lia.
    + now rewrite !Nat.add_0_r.
Qed.

Lemma run_ext p q s : (forall c, p c = q c) -> run p s = run q s.
Proof.
  intros H. induction s as [| c s IH]; simpl; auto. now rewrite H, IH.
Qed.

Lemma expand_literal s whole g : expand (literal s) whole g = s.
Proof.
  unfold expand, literal. induction s as [| c s IH]; simpl; auto. now f_equal.
Qed.

(** ** Rule 7: runs of spaces *)

Import Normalizer.

Lemma match_spaces b a :
  match_at false pat_spaces false b a
  = if Nat.leb 1 (run is_sp a) then Some (run is_sp a, []) else None.
Proof.
  unfold match_at, pat_spaces. simpl rx. rewrite rep_last.
  rewrite (run_ext _ is_sp) by (intros c; apply set_lit). reflexivity.
Qed.

Lemma min_len_spaces : (1 <= min_len pat_spaces)%nat.
Proof. simpl. lia. Qed.

Local Notation "'sub7'" := (sub false pat_spaces (literal [SP])).

Lemma run_zero_head p s : run p s = O -> forall c s', s = c :: s' -> p c = false.
Proof.
  intros H c s' ->. simpl in H. destruct (p c); [discriminate | reflexivity].
Qed.

Lemma all_run p m rest :
  m <> [] -> run p (m ++ rest) = List.length m ->
  forallb p m = true /\ forall c s', rest = c :: s' -> p c = false.
Proof.
  intros _. revert rest. induction m as [| c m IH]; intros rest H; simpl in *.
  - split; auto. now apply run_zero_head.
  - destruct (p c); [| discriminate]. inversion H as [H'].
    destruct (IH _ H') as [H1 H2]. auto.
Qed.

(** What rule 7 finds at a position: a maximal run of spaces. *)
Lemma match_spaces_some b m rest g :
  m <> [] ->
  match_at false pat_spaces false b (m ++ rest) = Some (List.length m, g) ->
  forallb is_sp m = true /\ g = [] /\ forall c s', rest = c :: s' -> is_sp c = false.
Proof.
  intros Hm H. rewrite match_spaces in H.
  destruct (Nat.leb 1 (run is_sp (m ++ rest))); [| discriminate].
  inversion H as [[H1 H2]].
  destruct (all_run _ _ _ Hm H1). auto.
Qed.

Lemma match_spaces_none b c a :
  match_at false pat_spaces false b (c :: a) = None -> is_sp c = false.
Proof.
  rewrite match_spaces. simpl. destruct (is_sp c); [discriminate | reflexivity].
Qed.

Lemma no_sp2_cons c s :
  no_sp2 (c :: s) =
  match s with [] => true | c' :: _ => negb (is_sp c && is_sp c') && no_sp2 s end.
Proof. reflexivity. Qed.

(** The result of rule 7 has no two spaces in a row, and starts with a
    space only where the text does. *)
Lemma sub7_no_sp2 b a :
  no_sp2 (sub7 b a) = true /\
  (forall c s', sub7 b a = c :: s' -> is_sp c = true ->
                exists a', a = SP :: a').
Proof.
  apply (sub_ind false pat_spaces (literal [SP]) min_len_spaces
           (fun b a out => no_sp2 out = true /\
              (forall c s', out = c :: s' -> is_sp c = true -> exists a', a = SP :: a'))).
  - intros _. split; auto. discriminate.
  - intros b0 c a0 Hnone [IH1 IH2]. apply match_spaces_none in Hnone. split.
    + rewrite no_sp2_cons. destruct (sub7 (c :: b0) a0) eqn:E; auto.
      rewrite Hnone. simpl. exact IH1.
    + intros x s' Hx Hsp. inversion Hx; subst. congruence.
  - intros b0 m rest g Hm Hmatch [IH1 IH2].
    destruct (match_spaces_some _ _ _ _ Hm Hmatch) as (Hall & -> & Hrest).
    rewrite expand_literal. cbn [app]. split.
    + rewrite no_sp2_cons. destruct (sub7 (rev m ++ b0) rest) as [| x s'] eqn:E; auto.
      rewrite IH1, andb_true_r. apply negb_true_iff, andb_false_iff. right.
      destruct (is_sp x) eqn:Ex; auto.
      destruct (IH2 x s' eq_refl Ex) as (a' & ->).
      pose proof (Hrest SP a' eq_refl) as Hc. vm_compute in Hc. discriminate.
    + intros x s' Hx _. destruct m as [| y m]; [congruence |].
      simpl in Hall. apply andb_true_iff in Hall as [Hy _].
      apply N.eqb_eq in Hy. subst y. simpl. eauto.
Qed.

(** Rule 7 keeps every character that is no space. *)
Lemma sub7_keeps c b a : is_sp c = false -> In c a -> In c (sub7 b a).
Proof.
  intros Hc. revert b a.
  apply (sub_ind false pat_spaces (literal [SP]) min_len_spaces
           (fun b a out => In c a -> In c out)).
  - auto.
  - intros b0 x a0 _ IH [-> | H]; [left; reflexivity | right; auto].
  - intros b0 m rest g Hm Hmatch IH H.
    destruct (match_spaces_some _ _ _ _ Hm Hmatch) as (Hall & -> & Hrest).
    rewrite expand_literal.
    apply in_or_app. right. apply IH. apply in_app_or in H as [H | H]; auto.
    rewrite forallb_forall in Hall. rewrite (Hall _ H) in Hc. discriminate.
Qed.

(** ** Rule 8: three or more line breaks *)

Lemma match_breaks b a :
  match_at false pat_breaks false b a
  = if Nat.leb 3 (run is_lf a) then Some (run is_lf a, []) else None.
Proof.
  unfold match_at, pat_breaks. simpl rx. rewrite rep_last.
  rewrite (run_ext _ is_lf) by (intros c; apply set_lit). reflexivity.
Qed.

Lemma min_len_breaks : (1 <= min_len pat_breaks)%nat.
Proof. simpl. lia. Qed.

Local Notation "'sub8'" := (sub false pat_breaks (literal [LF; LF])).

Lemma runs_le2_not_lf k j s :
  (forall c s', s = c :: s' -> is_lf c = false) -> runs_le2 k s = runs_le2 j s.
Proof.
  destruct s as [| c s]; simpl; auto. intros H. now rewrite (H c s eq_refl).
Qed.

(** The result of rule 8 has no three line breaks in a row. *)
Lemma sub8_runs b a :
  forall k, k = O \/ (k + run is_lf a <= 2)%nat -> runs_le2 k (sub8 b a) = true.
Proof.
  apply (sub_ind false pat_breaks (literal [LF; LF]) min_len_breaks
           (fun b a out => forall k, k = O \/ (k + run is_lf a <= 2)%nat ->
                                     runs_le2 k out = true)).
  - reflexivity.
  - intros b0 c a0 Hnone IH k Hk. rewrite match_breaks in Hnone.
    destruct (Nat.leb 3 (run is_lf (c :: a0))) eqn:E; [discriminate |].
    apply Nat.leb_gt in E. simpl in *. destruct (is_lf c).
    + apply andb_true_iff. split.
      * apply Nat.ltb_lt. lia.
      * apply IH. right. lia.
    + apply IH. now left.
  - intros b0 m rest g Hm Hmatch IH k Hk. rewrite match_breaks in Hmatch.
    destruct (Nat.leb 3 (run is_lf (m ++ rest))) eqn:E; [| discriminate].
    apply Nat.leb_le in E. inversion Hmatch as [[H1 H2]].
    destruct (all_run _ _ _ Hm H1) as [_ Hrest].
    assert (k = O) by lia. subst k. rewrite expand_literal.
    change (runs_le2 2 (sub8 (rev m ++ b0) rest) = true).
    apply IH. right.
    destruct rest as [| x rest']; simpl; [lia |].
    rewrite (Hrest x rest' eq_refl). lia.
Qed.

(** ** Replacing by a paragraph break keeps spaces apart *)

Lemma no_sp2_tail c s : no_sp2 (c :: s) = true -> no_sp2 s = true.
Proof.
  rewrite no_sp2_cons. destruct s; auto. intros H.
  now apply andb_true_iff in H as [_ H].
Qed.

Lemma no_sp2_suffix m s : no_sp2 (m ++ s) = true -> no_sp2 s = true.
Proof.
  induction m as [| c m IH]; auto. intros H. apply IH.
  eapply no_sp2_tail. exact H.
Qed.

Section BreakTemplate.
Variable r : regex.
Hypothesis Hmin : (1 <= min_len r)%nat.

Lemma sub_break_no_sp2 b a :
  no_sp2 a = true ->
  no_sp2 (sub false r (literal [LF; LF]) b a) = true /\
  (forall c s', sub false r (literal [LF; LF]) b a = c :: s' -> is_sp c = true ->
                exists a', a = SP :: a').
Proof.
  apply (sub_ind false r (literal [LF; LF]) Hmin
           (fun b a out => no_sp2 a = true -> no_sp2 out = true /\
              (forall c s', out = c :: s' -> is_sp c = true ->
                            exists a', a = SP :: a'))).
  - intros _ _. split; auto. discriminate.
  - intros b0 c a0 _ IH Ha.
    destruct (IH (no_sp2_tail _ _ Ha)) as [IH1 IH2]. split.
    + rewrite no_sp2_cons.
      destruct (sub false r (literal [LF; LF]) (c :: b0) a0) as [| x s'] eqn:E; auto.
      rewrite IH1, andb_true_r. apply negb_true_iff.
      destruct (is_sp c) eqn:Ec; auto. destruct (is_sp x) eqn:Ex; auto.
      destruct (IH2 x s' eq_refl Ex) as (a' & ->).
      rewrite no_sp2_cons in Ha. rewrite Ec in Ha. vm_compute in Ha. discriminate.
    + intros x s' Hx Hsp. inversion Hx; subst x s'.
      apply N.eqb_eq in Hsp. subst c. eauto.
  - intros b0 m rest g _ _ IH Ha. rewrite expand_literal.
    destruct (IH (no_sp2_suffix _ _ Ha)) as [IH1 IH2]. split.
    + cbn [app]. rewrite no_sp2_cons. apply andb_true_iff. split; [reflexivity |].
      rewrite no_sp2_cons.
      destruct (sub false r (literal [LF; LF]) (rev m ++ b0) rest); auto.
    + intros x s' Hx Hsp. inversion Hx; subst x. vm_compute in Hsp. discriminate.
Qed.
End BreakTemplate.

(** ** Rule 9: blank paragraphs *)

Lemma all_space_set w :
  forallb (set_match false false [CatSpace]) w = all_space w.
Proof.
  unfold all_space. induction w as [| c w IH]; cbn [forallb]; auto.
  now rewrite set_space, IH.
Qed.

Lemma min_len_blank : (1 <= min_len pat_blank)%nat.
Proof. simpl. lia. Qed.

Lemma after_blank_some b a n g res :
  after_blank b a n g = Some res <->
  exists rest, a = LF :: LF :: rest /\ res = (S (S n), g).
Proof.
  unfold after_blank, chr. cbn [rx]. split.
  - destruct a as [| c1 [| c2 rest]]; try discriminate.
    + destruct (set_match false false [Lit LF] c1); discriminate.
    + rewrite !set_lit. destruct (N.eqb_spec c1 LF); [| discriminate].
      destruct (N.eqb_spec c2 LF); [| discriminate].
      intros H. inversion H; subst. eauto.
  - intros (rest & -> & ->). rewrite !set_lit, !N.eqb_refl. reflexivity.
Qed.

Lemma after_blank_breaks b rest n g :
  after_blank b (LF :: LF :: rest) n g = Some (S (S n), g).
Proof. apply after_blank_some. eauto. Qed.

Lemma match_blank_unfold b a :
  match_at false pat_blank false b a
  = match a with
    | c1 :: c2 :: a2 =>
        if is_lf c1 && is_lf c2
        then rep (set_match false false [CatSpace]) 0 None 0
                 (c2 :: c1 :: b) a2 2 [] after_blank
        else None
    | _ => None
    end.
Proof.
  unfold match_at, pat_blank, chr, after_blank. cbn [cats rx andb].
  destruct a as [| c1 [| c2 a2]]; auto.
  - rewrite set_lit. now destruct (c1 =? LF).
  - rewrite !set_lit. unfold is_lf, chr.
    destruct (c1 =? LF); auto.
Qed.

(** A match of rule 9: a paragraph break, whitespace, a paragraph break,
    with the last break as far to the right as the whitespace allows. *)
Lemma match_blank_some b a n g :
  match_at false pat_blank false b a = Some (n, g) ->
  exists w rest,
    a = LF :: LF :: w ++ LF :: LF :: rest /\ all_space w = true /\
    n = (4 + List.length w)%nat /\
    (forall c s', rest = c :: s' -> is_lf c = false) /\
    ~ pair_ahead rest.
Proof.
  rewrite match_blank_unfold.
  destruct a as [| c1 [| c2 a2]]; try discriminate.
  unfold is_lf. destruct (N.eqb_spec c1 LF); [| discriminate].
  destruct (N.eqb_spec c2 LF); [| discriminate]. subst c1 c2. simpl andb. cbv iota.
  intros H. apply rep_some in H; [| exact I].
  destruct H as (w & a' & -> & Hw & _ & _ & Hk & Hmax).
  apply after_blank_some in Hk as (rest & -> & Hres). inversion Hres; subst n g.
  rewrite all_space_set in Hw.
  exists w, rest. repeat split; auto.
  - intros c s' -> . destruct (is_lf c) eqn:Ec; auto. apply N.eqb_eq in Ec. subst c.
    specialize (Hmax (w ++ [LF]) (LF :: LF :: s')).
    rewrite <- app_assoc in Hmax. specialize (Hmax eq_refl).
    rewrite all_space_set, all_space_app, Hw in Hmax. specialize (Hmax eq_refl).
    rewrite length_app in Hmax. simpl in Hmax.
    assert (Hlt : (List.length w < List.length w + 1)%nat) by lia.
    specialize (Hmax Hlt I). rewrite after_blank_breaks in Hmax. discriminate.
  - intros (w2 & rest2 & -> & Hw2).
    specialize (Hmax (w ++ LF :: LF :: w2) (LF :: LF :: rest2)).
    rewrite <- app_assoc in Hmax. simpl in Hmax. specialize (Hmax eq_refl).
    rewrite all_space_set, all_space_app, Hw in Hmax. simpl in Hmax.
    change (all_space w2) with (forallb is_space w2) in Hw2.
    unfold all_space in Hmax. simpl in Hmax. rewrite Hw2 in Hmax.
    specialize (Hmax eq_refl). rewrite length_app in Hmax. simpl in Hmax.
    assert (Hlt : (List.length w < List.length w + S (S (List.length w2)))%nat) by lia.
    specialize (Hmax Hlt I). rewrite after_blank_breaks in Hmax. discriminate.
Qed.

Lemma match_blank_none b a2 :
  match_at false pat_blank false b (LF :: LF :: a2) = None -> ~ pair_ahead a2.
Proof.
  rewrite match_blank_unfold. simpl andb. cbv iota.
  intros H (w & rest & -> & Hw).
  eapply rep_none in H; [| reflexivity | rewrite all_space_set; exact Hw | simpl; lia | exact I].
  rewrite after_blank_breaks in H. discriminate.
Qed.

Local Notation "'sub9'" := (sub false pat_blank (literal [LF; LF])).

Lemma pair_ahead_here rest : pair_ahead (LF :: LF :: rest).
Proof. exists [], rest. auto. Qed.

Lemma pair_ahead_space c s : is_space c = true -> pair_ahead s -> pair_ahead (c :: s).
Proof.
  intros Hc (w & rest & -> & Hw). exists (c :: w), rest.
  unfold all_space in *. simpl. now rewrite Hc, Hw.
Qed.

Lemma is_lf_space c : is_lf c = true -> is_space c = true.
Proof. intros H. apply N.eqb_eq in H. now subst c. Qed.

Lemma runs_le2_any k s : runs_le2 k s = true -> runs_le2 0 s = true.
Proof.
  destruct s as [| c s]; simpl; auto. destruct (is_lf c); auto.
  intros H. apply andb_true_iff in H as [Hk H]. apply Nat.ltb_lt in Hk.
  destruct s as [| c' s]; simpl in *; auto. destruct (is_lf c'); auto.
  apply andb_true_iff in H as [Hk' H]. apply Nat.ltb_lt in Hk'.
  replace k with O in * by lia. now rewrite H.
Qed.

Lemma runs_le2_suffix m : forall k s, runs_le2 k (m ++ s) = true -> runs_le2 0 s = true.
Proof.
  induction m as [| c m IH]; intros k s H.
  - eapply runs_le2_any; eauto.
  - simpl in H. destruct (is_lf c).
    + apply andb_true_iff in H as [_ H]. eauto.
    + eauto.
Qed.

(** The result of rule 9, read by [para_ok] from a state that fits the
    text ahead, passes. *)
Lemma sub9_para_ok b a :
  forall seen prev, ahead_ok seen prev a -> para_ok seen prev (sub9 b a) = true.
Proof.
  apply (sub_ind false pat_blank (literal [LF; LF]) min_len_blank
           (fun b a out => forall seen prev, ahead_ok seen prev a ->
                                             para_ok seen prev out = true)).
  - reflexivity.
  - intros b0 c a0 Hnone IH seen prev (Hruns & Hseen & Hprev).
    cbn [para_ok]. cbn [runs_le2] in Hruns.
    destruct (is_lf c) eqn:Ec.
    + assert (c = LF) by now apply N.eqb_eq in Ec. subst c.
      apply andb_true_iff in Hruns as [Hk Hruns]. apply Nat.ltb_lt in Hk.
      destruct prev.
      * (* the second line break of a pair that was copied *)
        destruct seen; [simpl in Hk; lia |]. simpl.
        apply IH. split; [exact Hruns | split].
        -- intros _. exact (Hprev eq_refl eq_refl a0 eq_refl).
        -- discriminate.
      * simpl in Hruns. destruct seen.
        -- (* a line break after the pair of this stretch of whitespace *)
           specialize (Hseen eq_refl). apply IH.
           assert (Hhead : forall x s', a0 = x :: s' -> is_lf x = false).
           { intros x s' ->. destruct (is_lf x) eqn:Ex; auto.
             apply N.eqb_eq in Ex. subst x. exfalso. apply Hseen, pair_ahead_here. }
           split; [| split].
           ++ simpl. rewrite (runs_le2_not_lf 2 1 _ Hhead). exact Hruns.
           ++ intros _ Hp. apply Hseen. apply pair_ahead_space; auto.
           ++ discriminate.
        -- (* a first line break *)
           apply IH. split; [exact Hruns | split].
           ++ discriminate.
           ++ intros _ _ a' ->. eapply match_blank_none; eauto.
    + destruct (is_space c) eqn:Es.
      * apply IH. split; [| split].
        -- exact Hruns.
        -- intros Hs Hp. apply (Hseen Hs). now apply pair_ahead_space.
        -- discriminate.
      * apply IH. split; [exact Hruns | split; discriminate].
  - intros b0 m rest g Hm Hmatch IH seen prev (Hruns & Hseen & Hprev).
    rewrite expand_literal.
    apply match_blank_some in Hmatch
      as (w & rest' & Heq & Hw & Hlen & Hhead & Hno).
    assert (Hm' : m = LF :: LF :: w ++ [LF; LF] /\ rest = rest').
    { assert (E : m ++ rest = (LF :: LF :: w ++ [LF; LF]) ++ rest').
      { rewrite Heq. simpl. now rewrite <- app_assoc. }
      apply app_same_length in E; auto.
      revert Hlen. simpl. rewrite length_app. simpl. lia. }
    destruct Hm' as [-> ->]. cbn [app para_ok]. simpl app in Hruns.
    change (is_lf LF) with true. cbv iota.
    destruct prev.
    + exfalso. cbn [runs_le2] in Hruns. change (is_lf LF) with true in Hruns.
      cbv iota in Hruns. apply andb_true_iff in Hruns as [_ Hruns].
      apply andb_true_iff in Hruns as [Hk _]. apply Nat.ltb_lt in Hk.
      destruct seen; simpl in Hk; lia.
    + destruct seen.
      * exfalso. apply (Hseen eq_refl). apply pair_ahead_here.
      * simpl. apply IH. split; [| split].
        -- simpl. rewrite (runs_le2_not_lf 2 0 _ Hhead).
           apply (runs_le2_suffix (LF :: LF :: w ++ [LF; LF]) _ _ Hruns).
        -- intros _. exact Hno.
        -- discriminate.
Qed.

(** ** From the checks to occurrences *)

Lemma no_sp2_occurs s : no_sp2 s = true -> ~ occurs [SP; SP] s.
Proof.
  intros H (u & v & ->). apply no_sp2_suffix in H. simpl in H. discriminate.
Qed.

Lemma occurs_no_sp2 s : ~ occurs [SP; SP] s -> no_sp2 s = true.
Proof.
  induction s as [| c s IH]; auto. intros H. rewrite no_sp2_cons.
  destruct s as [| c' s]; auto. apply andb_true_iff. split.
  - apply negb_true_iff. destruct (is_sp c) eqn:Ec; auto.
    destruct (is_sp c') eqn:Ec'; auto.
    apply N.eqb_eq in Ec, Ec'. subst. exfalso. apply H. exists [], s. reflexivity.
  - apply IH. intros Ho. apply H. apply (occurs_app_l _ _ [c]). exact Ho.
Qed.

Lemma runs_le2_occurs k s : runs_le2 k s = true -> ~ occurs [LF; LF; LF] s.
Proof.
  intros H (u & v & ->). apply runs_le2_suffix in H. simpl in H. discriminate.
Qed.

Lemma occurs_runs_le2 s : ~ occurs [LF; LF; LF] s -> runs_le2 0 s = true.
Proof.
  assert (G : forall s k, (k <= 2)%nat ->
                 ~ occurs [LF; LF; LF] (repeat LF k ++ s) -> runs_le2 k s = true).
  { clear s. induction s as [| c s IH]; intros k Hk H; auto.
    simpl. destruct (is_lf c) eqn:Ec.
    - apply N.eqb_eq in Ec. subst c.
      destruct (Nat.eq_dec k 2) as [-> | Hne].
      + exfalso. apply H. exists [], s. reflexivity.
      + apply andb_true_iff. split; [apply Nat.ltb_lt; lia |].
        apply IH; [lia |]. intros Ho. apply H.
        replace (repeat LF k ++ LF :: s) with (repeat LF (S k) ++ s); auto.
        change (repeat LF (S k)) with (LF :: repeat LF k).
        rewrite repeat_cons, <- app_assoc. reflexivity.
    - apply (IH O); [lia |]. simpl. intros Ho. apply H.
      apply occurs_app_l. apply (occurs_app_l _ _ [c]). exact Ho. }
  intros H. apply (G s O); [lia | exact H].
Qed.

Lemma para_ok_suffix u :
  forall seen prev v,
    para_ok seen prev (u ++ v) = true -> exists seen' prev', para_ok seen' prev' v = true.
Proof.
  induction u as [| c u IH]; intros seen prev v H; simpl in H; eauto.
  destruct (is_lf c).
  - destruct prev; eauto. apply andb_true_iff in H as [_ H]. eauto.
  - destruct (is_space c); eauto.
Qed.

Lemma para_ok_seen w :
  forall prev v, all_space w = true -> para_ok true prev (w ++ LF :: LF :: v) = false.
Proof.
  induction w as [| c w IH]; intros prev v Hw.
  - simpl. change (is_lf LF) with true. cbv iota. destruct prev; auto.
  - unfold all_space in Hw. simpl in Hw. apply andb_true_iff in Hw as [Hc Hw].
    simpl. destruct (is_lf c).
    + destruct prev; auto.
    + rewrite Hc. auto.
Qed.

Lemma para_ok_pair seen prev v :
  para_ok seen prev (LF :: LF :: v) = true -> para_ok true true v = true.
Proof.
  simpl. change (is_lf LF) with true. cbv iota.
  destruct prev.
  - intros H. apply andb_true_iff in H as [_ H]. simpl in H. discriminate.
  - intros H. now apply andb_true_iff in H as [_ H].
Qed.

(** A text that passes [para_ok] has no three line breaks in a row and no
    blank paragraph. *)
Lemma para_ok_breaks seen prev s :
  para_ok seen prev s = true -> ~ occurs [LF; LF; LF] s.
Proof.
  intros H (u & v & ->). apply para_ok_suffix in H as (s1 & p1 & H).
  apply para_ok_pair in H. simpl in H. discriminate.
Qed.

Lemma para_ok_blank seen prev s w :
  para_ok seen prev s = true -> all_space w = true ->
  ~ occurs (LF :: LF :: w ++ [LF; LF]) s.
Proof.
  intros H Hw (u & v & ->). apply para_ok_suffix in H as (s1 & p1 & H).
  simpl in H. rewrite <- app_assoc in H. apply para_ok_pair in H.
  simpl in H. rewrite para_ok_seen in H; auto. discriminate.
Qed.

(** ** Rules that leave a text alone *)

Lemma sub7_fixed b a : no_sp2 a = true -> sub false pat_spaces (literal [SP]) b a = a.
Proof.
  apply (sub_ind false pat_spaces (literal [SP]) min_len_spaces
           (fun b a out => no_sp2 a = true -> out = a)).
  - auto.
  - intros b0 c a0 _ IH H. f_equal. apply IH. eapply no_sp2_tail; eauto.
  - intros b0 m rest g Hm Hmatch IH H.
    destruct (match_spaces_some _ _ _ _ Hm Hmatch) as (Hall & -> & Hrest).
    rewrite expand_literal, (IH (no_sp2_suffix _ _ H)).
    destruct m as [| x [| y m]]; [congruence | |].
    + simpl in Hall. rewrite andb_true_r in Hall. apply N.eqb_eq in Hall. now subst.
    + simpl in Hall. apply andb_true_iff in Hall as [Hx Hall].
      apply andb_true_iff in Hall as [Hy _].
      simpl in H. rewrite Hx, Hy in H. discriminate.
Qed.

Lemma runs_le2_run3 k a : (3 <= run is_lf a)%nat -> runs_le2 k a = false.
Proof.
  destruct a as [| c1 [| c2 [| c3 s]]]; simpl.
  - lia.
  - destruct (is_lf c1); simpl; lia.
  - destruct (is_lf c1); [| lia]. destruct (is_lf c2); simpl; lia.
  - destruct (is_lf c1); [| lia]. destruct (is_lf c2); [| lia].
    destruct (is_lf c3); [| lia]. intros _.
    destruct k as [| [| k]]; reflexivity.
Qed.

Lemma sub8_fixed b a :
  forall k, runs_le2 k a = true -> sub false pat_breaks (literal [LF; LF]) b a = a.
Proof.
  apply (sub_ind false pat_breaks (literal [LF; LF]) min_len_breaks
           (fun b a out => forall k, runs_le2 k a = true -> out = a)).
  - auto.
  - intros b0 c a0 _ IH k H. f_equal. simpl in H.
    destruct (is_lf c); [apply andb_true_iff in H as [_ H] |]; eauto.
  - intros b0 m rest g Hm Hmatch IH k H. exfalso.
    rewrite match_breaks in Hmatch.
    destruct (Nat.leb 3 (run is_lf (m ++ rest))) eqn:E; [| discriminate].
    apply Nat.leb_le in E. rewrite (runs_le2_run3 _ _ E) in H. discriminate.
Qed.

(** ** The chain of rules *)

Lemma clean_text_chain text : clean_text text = Ok (strip (after_rule9 text)).
Proof. reflexivity. Qed.

(** ** Rule 5: numbers fused to a word *)

Lemma decimal_set w :
  forallb (set_match true false [CatDigit]) w = forallb is_decimal w.
Proof.
  induction w as [| c w IH]; cbn [forallb]; auto. now rewrite set_digit, IH.
Qed.

(** The look-ahead of rule 5. *)
Lemma ahead_fused b a n g :
  rx true (alt (Cls false [CatSpace]) [Cls false closing; AtEnd]) b a n g
     (fun _ _ _ g' => Some (O, g'))
  = if follows_ok a then Some (O, g) else None.
Proof.
  cbn [alt rx]. destruct a as [| c a]; auto.
  rewrite set_space, closing_chars. unfold follows_ok.
  destruct (is_space c) eqn:Es; auto. simpl orb.
  destruct (is_closing c); auto.
  destruct a; auto.
  destruct (N.eqb_spec c LF); auto. subst c. discriminate.
Qed.

(** What comes after the start of a number that rule 5 deletes is no
    digit. *)
Lemma follows_not_decimal a :
  follows_ok a = true -> forall c s', a = c :: s' -> is_decimal c = false.
Proof.
  intros H c s' ->. simpl in H. destruct (is_decimal c) eqn:E; auto.
  rewrite (decimal_not_space _ E), (decimal_not_closing _ E) in H. discriminate.
Qed.

Lemma run_firstn p s :
  forallb p (firstn (run p s) s) = true /\
  List.length (firstn (run p s) s) = run p s.
Proof.
  induction s as [| c s [IH1 IH2]]; simpl; auto.
  destruct (p c) eqn:E; simpl; auto. now rewrite E, IH1, IH2.
Qed.

Lemma run_le_length p s : (run p s <= List.length s)%nat.
Proof.
  induction s as [| c s IH]; simpl; auto. destruct (p c); lia.
Qed.

Lemma rep_ext p lo hi (k1 k2 : cont) :
  (forall b a n g, k1 b a n g = k2 b a n g) ->
  forall a cnt b n g, rep p lo hi cnt b a n g k1 = rep p lo hi cnt b a n g k2.
Proof.
  intros H. induction a as [| c a IH]; intros cnt b n g; simpl.
  - now rewrite H.
  - rewrite IH, H. reflexivity.
Qed.

(** The continuation of the repetition in [pat_fused]. *)
Lemma fused_cont b a :
  match_at true pat_fused false b a
  = match b with
    | c :: _ =>
        if is_letter c
        then rep (set_match true false [CatDigit]) 1 (Some 3%nat) 0 b a 0 []
                 (fun b' a' n' g' =>
                    if follows_ok a'
                    then Some (n', (1%nat, firstn (n' - 0) a) :: g')
                    else None)
        else None
    | [] => None
    end.
Proof.
  unfold match_at, pat_fused. cbn [cats rx]. destruct b as [| c b]; auto.
  rewrite alphabet_letters. destruct (is_letter c); auto.
  apply rep_ext. intros b' a' n' g'. cbn [rx].
  rewrite ahead_fused. destruct (follows_ok a'); reflexivity.
Qed.

Lemma skipn_app_length (w s : pystr) : skipn (List.length w) (w ++ s) = s.
Proof. induction w; simpl; auto. Qed.

Lemma firstn_app_length (w s : pystr) : firstn (List.length w) (w ++ s) = w.
Proof. induction w; simpl; auto. now f_equal. Qed.

(** Rule 5 matches at a position exactly where [fused_len] finds a number,
    and the match is that number. *)
Lemma match_fused b a :
  match_at true pat_fused false b a
  = match fused_len b a with
    | Some m => Some (m, [(1%nat, firstn m a)])
    | None => None
    end.
Proof.
  rewrite fused_cont. unfold fused_len.
  destruct b as [| x b]; auto. destruct (is_letter x); auto.
  match goal with |- ?L = _ => destruct L as [res |] eqn:E end.
  - apply rep_some in E; [| simpl; lia].
    destruct E as (w & a' & -> & Hw & Hlo & Hhi & Hk & _).
    simpl in Hlo, Hhi, Hk.
    destruct (follows_ok a') eqn:Ef; [| discriminate].
    inversion Hk; subst res. rewrite decimal_set in Hw.
    rewrite (run_app_stop _ _ _ Hw (follows_not_decimal _ Ef)).
    rewrite skipn_app_length, Ef, Nat.sub_0_r.
    replace (Nat.leb 1 (List.length w)) with true by (symmetry; apply Nat.leb_le; lia).
    replace (Nat.leb (List.length w) 3) with true by (symmetry; apply Nat.leb_le; lia).
    reflexivity.
  - destruct (Nat.leb 1 (run is_decimal a) && Nat.leb (run is_decimal a) 3
              && follows_ok (skipn (run is_decimal a) a)) eqn:Ec; auto.
    exfalso. apply andb_true_iff in Ec as [Ec Ef].
    apply andb_true_iff in Ec as [E1 E3]. apply Nat.leb_le in E1, E3.
    destruct (run_firstn is_decimal a) as [Hall Hlen].
    pose proof (rep_none _ _ _ _ _ _ _ _ _ E
                  (firstn (run is_decimal a) a) (skipn (run is_decimal a) a)) as Hn.
    rewrite firstn_skipn, decimal_set, Hlen in Hn.
    specialize (Hn eq_refl Hall). simpl in Hn.
    assert (H3 : within (Some 3%nat) (run is_decimal a)) by exact E3.
    specialize (Hn E1 H3). cbv beta in Hn. rewrite Ef in Hn. discriminate.
Qed.

Lemma min_len_fused : (1 <= min_len pat_fused)%nat.
Proof. simpl. lia. Qed.

Lemma fused_len_some b a m :
  fused_len b a = Some m ->
  exists x b' w rest,
    b = x :: b' /\ is_letter x = true /\ a = w ++ rest /\
    List.length w = m /\ (1 <= m <= 3)%nat /\ m = run is_decimal a /\
    forallb is_decimal w = true /\ follows_ok rest = true.
Proof.
  unfold fused_len. destruct b as [| x b']; [discriminate |].
  destruct (is_letter x) eqn:El; [| discriminate].
  destruct (Nat.leb 1 (run is_decimal a) && Nat.leb (run is_decimal a) 3
            && follows_ok (skipn (run is_decimal a) a)) eqn:Ec; [| discriminate].
  intros H. inversion H; subst m.
  apply andb_true_iff in Ec as [Ec Ef].
  apply andb_true_iff in Ec as [E1 E3]. apply Nat.leb_le in E1, E3.
  destruct (run_firstn is_decimal a) as [Hall Hlen].
  exists x, b', (firstn (run is_decimal a) a), (skipn (run is_decimal a) a).
  rewrite firstn_skipn. repeat split; auto.
Qed.

(** ** Rule 5 as the function that drops fused numbers *)

Lemma drop_fused_other p d p' d' s :
  (forall c s', s = c :: s' -> is_decimal c = false) ->
  drop_fused p d s = drop_fused p' d' s.
Proof.
  destruct s as [| c s]; auto. intros H. simpl. now rewrite (H c s eq_refl).
Qed.

Lemma last_or_cons p c w : last_or p (c :: w) = last_or (Some c) w.
Proof.
  unfold last_or. simpl. destruct (rev w); reflexivity.
Qed.

Lemma drop_fused_run w :
  forall p rest,
    forallb is_decimal w = true -> w <> [] ->
    drop_fused p true (w ++ rest) = drop_fused (last_or p w) true rest.
Proof.
  induction w as [| c w IH]; intros p rest Hw Hne; [congruence |].
  simpl in Hw. apply andb_true_iff in Hw as [Hc Hw].
  cbn [app drop_fused]. rewrite Hc. cbn [orb].
  rewrite last_or_cons. destruct w as [| c' w'].
  - reflexivity.
  - apply IH; auto. discriminate.
Qed.

Lemma hd_error_rev_app (m b : pystr) c :
  last_or (Some c) m = last_or (hd_error b) (c :: m).
Proof. now rewrite last_or_cons. Qed.

Lemma hd_error_last (m b : pystr) :
  hd_error (rev m ++ b) = last_or (hd_error b) m.
Proof.
  unfold last_or. destruct (rev m); reflexivity.
Qed.

(** The loop of rule 5 computes [drop_fused]. *)
Lemma sub_fused_drop b a :
  sub true pat_fused (literal []) b a = drop_fused (hd_error b) false a.
Proof.
  apply (sub_ind true pat_fused (literal []) min_len_fused
           (fun b a out => out = drop_fused (hd_error b) false a)).
  - reflexivity.
  - intros b0 c a0 Hnone IH. rewrite match_fused in Hnone.
    destruct (fused_len b0 (c :: a0)) as [m |] eqn:Ef; [discriminate |].
    cbn [drop_fused]. rewrite IH. simpl hd_error.
    destruct (is_decimal c) eqn:Ec; auto.
    replace (is_letter_before (hd_error b0) && run_ok (c :: a0)) with false; auto.
    symmetry. unfold fused_len in Ef. destruct b0 as [| x b0]; auto.
    simpl hd_error. simpl is_letter_before.
    destruct (is_letter x); auto. cbn [andb]. unfold run_ok.
    assert (H1 : Nat.leb 1 (run is_decimal (c :: a0)) = true).
    { simpl. now rewrite Ec. }
    rewrite H1 in Ef. cbn [andb] in Ef.
    destruct (Nat.leb (run is_decimal (c :: a0)) 3 &&
              follows_ok (skipn (run is_decimal (c :: a0)) (c :: a0))); auto.
    discriminate.
  - intros b0 m rest g Hm Hmatch IH. rewrite match_fused in Hmatch.
    destruct (fused_len b0 (m ++ rest)) as [n |] eqn:Ef; [| discriminate].
    inversion Hmatch; subst n. clear Hmatch.
    rewrite expand_literal. cbn [app]. rewrite IH, hd_error_last.
    pose proof Ef as Ef'.
    apply fused_len_some in Ef'
      as (x & b' & w & rest' & -> & Hl & Heq & Hlen & Hm3 & Hrun & Hw & Hfol).
    apply app_same_length in Heq as [Em Er]; auto. subst w rest'.
    destruct m as [| c w]; [congruence |].
    cbn [app drop_fused]. simpl in Hw. apply andb_true_iff in Hw as [Hc Hw].
    rewrite Hc. simpl hd_error. simpl is_letter_before. rewrite Hl.
    replace (run_ok (c :: w ++ rest)) with true.
    2:{ symmetry. unfold run_ok. change (c :: w ++ rest) with ((c :: w) ++ rest).
        rewrite <- Hrun, skipn_app_length, Hfol.
        apply andb_true_iff. split; auto. apply Nat.leb_le. lia. }
    cbn [orb andb]. rewrite last_or_cons.
    destruct w as [| c' w'].
    + simpl. apply drop_fused_other. now apply follows_not_decimal.
    + rewrite drop_fused_run; auto; [| discriminate].
      apply drop_fused_other. now apply follows_not_decimal.
Qed.

Lemma not_template_ok_fused : template_ok pat_fused (literal []) = true.
Proof. reflexivity. Qed.

Lemma rule5_drop text : rule5 text = Ok (drop_fused None false text).
Proof.
  unfold rule5, re_sub. rewrite not_template_ok_fused, sub_fused_drop. reflexivity.
Qed.

(** ** Long numbers *)

Lemma run_app_short p (pre x : pystr) :
  (run p pre < List.length pre)%nat ->
  run p (pre ++ x) = run p pre /\
  skipn (run p pre) (pre ++ x) = skipn (run p pre) pre ++ x /\
  skipn (run p pre) pre <> [].
Proof.
  induction pre as [| c pre IH]; simpl; [lia |].
  destruct (p c); simpl.
  - intros H. destruct IH as (H1 & H2 & H3); [lia |]. now rewrite H1.
  - intros _. repeat split; auto. discriminate.
Qed.

Lemma run_lt_last p (pre : pystr) c :
  p c = false -> (run p (pre ++ [c]) < List.length (pre ++ [c]))%nat.
Proof.
  intros Hc. induction pre as [| x pre IH]; simpl.
  - rewrite Hc. lia.
  - destruct (p x); simpl; lia.
Qed.

Lemma follows_ok_app (s x : pystr) : s <> [] -> follows_ok (s ++ x) = follows_ok s.
Proof. destruct s; [congruence | reflexivity]. Qed.

Lemma run_ok_app (pre x : pystr) c :
  is_decimal c = false -> run_ok ((pre ++ [c]) ++ x) = run_ok (pre ++ [c]).
Proof.
  intros Hc. unfold run_ok.
  destruct (run_app_short is_decimal (pre ++ [c]) x (run_lt_last _ pre c Hc))
    as (H1 & H2 & H3).
  rewrite H1, H2, follows_ok_app; auto.
Qed.

(** What comes after a prefix that does not end in a digit has no
    influence on what rule 5 does inside the prefix. *)
Lemma drop_fused_prefix pre :
  forall p d c x,
    is_decimal c = false ->
    drop_fused p d ((pre ++ [c]) ++ x)
    = drop_fused p d (pre ++ [c]) ++ drop_fused (Some c) false x.
Proof.
  induction pre as [| y pre IH]; intros p d c x Hc.
  - simpl. rewrite Hc. reflexivity.
  - change (((y :: pre) ++ [c]) ++ x) with (y :: (pre ++ [c]) ++ x).
    change ((y :: pre) ++ [c]) with (y :: pre ++ [c]).
    cbn [drop_fused].
    change (y :: (pre ++ [c]) ++ x) with (((y :: pre) ++ [c]) ++ x).
    change (y :: pre ++ [c]) with ((y :: pre) ++ [c]).
    rewrite (run_ok_app (y :: pre) x c Hc).
    destruct (is_decimal y); [destruct (d || _) |];
      cbn [app]; rewrite IH; auto.
Qed.

(** A run of four or more digits is kept, whatever comes before it. *)
Lemma drop_fused_long w :
  forall p rest,
    forallb is_decimal w = true ->
    (forall c s', rest = c :: s' -> is_decimal c = false) ->
    is_letter_before p = false \/ (4 <= List.length w)%nat ->
    drop_fused p false (w ++ rest) = w ++ drop_fused (last_or p w) false rest.
Proof.
  induction w as [| c w IH]; intros p rest Hw Hrest Hp.
  - reflexivity.
  - simpl in Hw. apply andb_true_iff in Hw as [Hc Hw].
    cbn [app drop_fused]. rewrite Hc. cbn [orb].
    replace (is_letter_before p && run_ok (c :: w ++ rest)) with false.
    + rewrite last_or_cons. f_equal. apply IH; auto.
      left. simpl. now apply decimal_not_letter.
    + symmetry. destruct Hp as [-> | Hlen]; auto.
      apply andb_false_iff. right. unfold run_ok.
      change (c :: w ++ rest) with ((c :: w) ++ rest).
      rewrite run_app_stop; auto; [| simpl; now rewrite Hc, Hw].
      apply andb_false_iff. left. apply Nat.leb_gt. lia.
Qed.

(** ** The extractor *)

Import Extractor ExtractorSpec.

Lemma fold_left_append {A B : Type} (f : A -> list B) (l : list A) :
  forall acc, fold_left (fun acc x => acc ++ f x) l acc = acc ++ flat_map f l.
Proof.
  induction l as [| x l IH]; intros acc; simpl.
  - now rewrite app_nil_r.
  - now rewrite IH, app_assoc.
Qed.

Lemma fold_left_ext {A B : Type} (f g : A -> B -> A) (l : list B) :
  (forall a x, f a x = g a x) -> forall a, fold_left f l a = fold_left g l a.
Proof.
  intros H. induction l as [| x l IH]; intros a; simpl; auto. now rewrite H, IH.
Qed.

Lemma line_text_kept l : line_text l = kept_text l.
Proof.
  unfold line_text, kept_text.
  rewrite (fold_left_ext _ (fun acc s => acc ++ (if span_skipped s then [] else span_text s))).
  - rewrite fold_left_append. simpl.
    induction (line_spans l) as [| s ss IH]; simpl; auto.
    destruct (span_skipped s); simpl; now rewrite IH.
  - intros a s. destruct (span_skipped s); auto. now rewrite app_nil_r.
Qed.

Lemma block_line_texts_entries lines :
  block_line_texts lines = flat_map line_entry lines.
Proof.
  unfold block_line_texts.
  rewrite (fold_left_ext _ (fun acc l => acc ++ line_entry l)).
  - now rewrite fold_left_append.
  - intros a l. unfold line_entry.
    destruct (is_page_number (strip (line_text l))); [now rewrite app_nil_r |].
    destruct (strip (line_text l)); auto. now rewrite app_nil_r.
Qed.

Lemma process_block_contribution h ft blk :
  process_block h ft blk = ft ++ block_contribution h blk.
Proof.
  unfold process_block, block_contribution, excluded, block_text.
  destruct (block_lines blk) as [lines |].
  - rewrite block_line_texts_entries.
    destruct (in_header h (block_y_top blk)); simpl; [now rewrite app_nil_r |].
    destruct (in_footer h (block_y_top blk)); simpl; [now rewrite app_nil_r |].
    destruct (flat_map line_entry lines); auto. now rewrite app_nil_r.
  - destruct (in_header h (block_y_top blk) || in_footer h (block_y_top blk));
      now rewrite app_nil_r.
Qed.

Lemma process_page_contributions ft p :
  process_page ft p
  = ft ++ flat_map (block_contribution (page_height p)) (page_blocks p).
Proof.
  unfold process_page.
  rewrite (fold_left_ext _ (fun acc blk => acc ++ block_contribution (page_height p) blk)).
  - apply fold_left_append.
  - intros. apply process_block_contribution.
Qed.

Lemma extract_contributions doc :
  extract_text_without_footnotes doc
  = str_join [LF; LF]
      (flat_map (fun p => flat_map (block_contribution (page_height p)) (page_blocks p))
                doc).
Proof.
  unfold extract_text_without_footnotes. f_equal.
  rewrite (fold_left_ext _ (fun acc p =>
             acc ++ flat_map (block_contribution (page_height p)) (page_blocks p))).
  - now rewrite fold_left_append.
  - intros. apply process_page_contributions.
Qed.

(** Equal floats are not in strict order. *)
Lemma float_eq_not_lt x y : PrimFloat.eqb x y = true -> PrimFloat.ltb x y = false.
Proof.
  rewrite eqb_spec, ltb_spec. unfold SpecFloat.SFeqb, SpecFloat.SFltb.
  destruct (SpecFloat.SFcompare (Prim2SF x) (Prim2SF y)) as [[| |] |];
    auto; discriminate.
Qed.

Lemma flags_bit0 (flags : Z) :
  negb (Z.eqb (Z.land flags 1) 0) = Z.testbit flags 0.
Proof.
  change 1%Z with (Z.ones 1). rewrite Z.land_ones by lia.
  change (2 ^ 1)%Z with 2%Z. rewrite <- Z.bit0_mod.
  destruct (Z.testbit flags 0); reflexivity.
Qed.

(** ** The writer *)

Import Writer.

Lemma para_text_ok para : para_text para = Ok (segment_text para).
Proof. reflexivity. Qed.

Lemma write_para_ok d para :
  write_para (Ok d) para
  = Ok (match segment_text para with
        | [] => d
        | t => add_paragraph t d
        end).
Proof.
  unfold write_para. cbn [bind]. rewrite para_text_ok. cbn [bind].
  destruct (segment_text para); reflexivity.
Qed.

Lemma write_paras segs :
  forall d,
    fold_left write_para segs (Ok d)
    = Ok {| font_name := font_name d; font_size := font_size d;
            paragraphs := paragraphs d ++ written segs |}.
Proof.
  unfold written. induction segs as [| s segs IH]; intros d; cbn [fold_left].
  - simpl. rewrite app_nil_r. now destruct d.
  - rewrite write_para_ok. cbn [map filter].
    destruct (segment_text s) as [| c t] eqn:E; cbn [nonempty].
    + apply IH.
    + rewrite IH. simpl. rewrite <- app_assoc. reflexivity.
Qed.

Lemma create_word_document_paragraphs text :
  exists d, create_word_document text = Ok d /\
            paragraphs d = written (str_split [LF; LF] text).
Proof.
  unfold create_word_document. rewrite write_paras. eexists. split; eauto.
Qed.

(** The text of a paragraph is empty exactly for a segment of whitespace. *)
Lemma segment_text_empty s : segment_text s = [] <-> all_space s = true.
Proof.
  unfold segment_text.
  rewrite strip_nil_iff, str_replace_char. unfold all_space.
  rewrite !forallb_forall. split.
  - intros H c Hc. destruct (N.eqb_spec c LF) as [-> | Hne]; [reflexivity |].
    destruct (is_sp c) eqn:Esp.
    + apply N.eqb_eq in Esp. now subst c.
    + apply H. apply sub7_keeps; auto.
      apply in_map_iff. exists c. split; auto.
      destruct (N.eqb_spec c LF); congruence.
  - intros H c Hc. apply sub_loop_chars in Hc as [Hc | Hc].
    + apply in_map_iff in Hc as (x & <- & Hx).
      destruct (x =? LF); [reflexivity | now apply H].
    + simpl in Hc. destruct Hc as [Hc | []]. inversion Hc. reflexivity.
Qed.

(** Where only empty segments give an empty text, the paragraphs written
    are those of the non-empty segments. *)
Lemma written_nonempty segs :
  (forall seg, In seg segs -> nonempty (segment_text seg) = nonempty seg) ->
  written segs = written (filter nonempty segs) /\
  List.length (written segs) = List.length (filter nonempty segs).
Proof.
  unfold written. induction segs as [| s segs IH]; intros H; [split; reflexivity |].
  destruct IH as [IH1 IH2]; [intros seg Hs; apply H; now right |].
  specialize (H s (or_introl eq_refl)). cbn [map filter]. rewrite H.
  destruct (nonempty s) eqn:En; cbn [map filter List.length].
  - rewrite H, <- IH1, IH2. auto.
  - auto.
Qed.

Import Normalizer Extractor ExtractorSpec Writer.

(** ** The text after all rules *)

Lemma sub_chars ic r t b a c :
  In c (sub ic r t b a) -> In c a \/ In (TChar c) t.
Proof. apply sub_loop_chars. Qed.

Lemma after_rule6_chars text c :
  In c (after_rule6 text) -> In c (rule1 text) \/ c = 40 \/ c = 41 \/ c = SP.
Proof.
  unfold after_rule6. intros H.
  apply sub_chars in H as [H | H].
  - repeat (apply sub_chars in H as [H | H]; [| destruct H]). now left.
  - right. simpl in H. destruct H as [H | [H | [H | [H | []]]]];
      inversion H; auto.
Qed.

Lemma after_rule9_chars text c :
  In c (after_rule9 text) ->
  In c (rule1 text) \/ c = 40 \/ c = 41 \/ c = SP \/ c = LF.
Proof.
  unfold after_rule9. intros H.
  assert (Hlf : forall x, In (TChar x) (literal [LF; LF]) -> x = LF).
  { intros x Hx. simpl in Hx. destruct Hx as [Hx | [Hx | []]]; now inversion Hx. }
  apply sub_chars in H as [H | H]; [| right; right; right; right; auto].
  apply sub_chars in H as [H | H]; [| right; right; right; right; auto].
  apply sub_chars in H as [H | H].
  - apply after_rule6_chars in H. tauto.
  - simpl in H. destruct H as [H | []]. inversion H. tauto.
Qed.

Lemma after_rule9_no_sp2 text : no_sp2 (after_rule9 text) = true.
Proof.
  unfold after_rule9.
  apply sub_break_no_sp2; [apply min_len_blank |].
  apply sub_break_no_sp2; [apply min_len_breaks |].
  apply sub7_no_sp2.
Qed.

Lemma after_rule9_para_ok text : para_ok false false (after_rule9 text) = true.
Proof.
  unfold after_rule9. apply sub9_para_ok. split; [| split]; try discriminate.
  simpl lf_before. apply sub8_runs. now left.
Qed.

(** A segment of a trimmed text with no blank paragraph is whitespace only
    when the text is empty. *)
Lemma split_no_blank out :
  trimmed out ->
  (forall w, all_space w = true -> ~ occurs (LF :: LF :: w ++ [LF; LF]) out) ->
  forall seg, In seg (str_split [LF; LF] out) -> all_space seg = true -> out = [].
Proof.
  intros [Hhead Hlast] Hblank seg Hin Hseg.
  assert (Hfirst : forall s v, all_space s = true -> out = s ++ LF :: LF :: v -> False).
  { intros s v Hs Ho. destruct s as [| c s].
    - specialize (Hhead LF (LF :: v) Ho). discriminate.
    - unfold all_space in Hs. simpl in Hs. apply andb_true_iff in Hs as [Hc _].
      specialize (Hhead c (s ++ LF :: LF :: v) Ho). congruence. }
  assert (Hend : forall u s, all_space s = true -> out = u ++ [LF; LF] ++ s -> False).
  { intros u s Hs Ho. destruct (exists_last (l := LF :: s)) as (s' & c & Hsc);
      [discriminate |].
    assert (Hc : is_space c = true).
    { assert (Ha : all_space (LF :: s) = true) by (unfold all_space in *; simpl; exact Hs).
      rewrite Hsc, all_space_app in Ha. apply andb_true_iff in Ha as [_ Ha].
      unfold all_space in Ha. simpl in Ha. now rewrite andb_true_r in Ha. }
    assert (Ho' : out = (u ++ LF :: s') ++ [c]).
    { rewrite Ho. simpl. rewrite <- app_assoc. simpl.
      change (LF :: LF :: s) with ([LF] ++ LF :: s). rewrite Hsc.
      simpl. reflexivity. }
    specialize (Hlast _ _ Ho'). congruence. }
  apply split_loop_segs in Hin; [| lia]. simpl in Hin.
  destruct Hin as [(x & v & Ho & Hx & Hv) | (u & x & v & Ho & Hx & Hv)]; subst seg.
  - destruct Hv as [-> | (v' & ->)].
    + rewrite app_nil_r in Ho. subst x. destruct out as [| c s]; auto.
      unfold all_space in Hseg. simpl in Hseg. apply andb_true_iff in Hseg as [Hc _].
      specialize (Hhead c s eq_refl). congruence.
    + exfalso. eapply Hfirst; eauto.
  - exfalso. destruct Hv as [-> | (v' & ->)].
    + rewrite app_nil_r in Ho. eapply Hend; eauto.
    + apply (Hblank x Hseg). exists u, v'. rewrite Ho. simpl.
      rewrite <- app_assoc. reflexivity.
Qed.

(** What holds of the result of [clean_text], for every text. *)
Lemma clean_invariants text :
  let out := strip (after_rule9 text) in
  (forall c, In c out -> ~ In c superscript_digits) /\
  ~ occurs [SP; SP] out /\
  ~ occurs [LF; LF; LF] out /\
  (forall w, all_space w = true -> ~ occurs (LF :: LF :: w ++ [LF; LF]) out) /\
  (forall seg, In seg (str_split [LF; LF] out) -> all_space seg = true -> out = []) /\
  trimmed out.
Proof.
  intros out.
  assert (Hblank : forall w, all_space w = true ->
                             ~ occurs (LF :: LF :: w ++ [LF; LF]) out).
  { intros w Hw Ho. apply strip_occurs in Ho.
    revert Ho. apply para_ok_blank with (seen := false) (prev := false); auto.
    apply after_rule9_para_ok. }
  repeat split.
  - intros c Hc Hs. apply strip_incl, after_rule9_chars in Hc.
    destruct (superscript_not_template c Hs) as (H1 & H2 & H3 & H4).
    destruct Hc as [Hc | [Hc | [Hc | [Hc | Hc]]]]; try contradiction.
    exact (rule1_no_superscript _ _ Hc Hs).
  - intros Ho. apply strip_occurs in Ho.
    exact (no_sp2_occurs _ (after_rule9_no_sp2 text) Ho).
  - intros Ho. apply strip_occurs in Ho.
    exact (para_ok_breaks _ _ _ (after_rule9_para_ok text) Ho).
  - exact Hblank.
  - apply split_no_blank; auto. apply strip_trimmed.
  - apply strip_trimmed.
  - apply strip_trimmed.
Qed.

(* ================================================================== *)
(** * The claims of the specification *)

(** ** C1: header and footer regions *)

(** C1, as stated, fails on the boundary: the claim has a block whose top
    equals a tenth of the page height excluded.  On [boundary_page] the
    top of the block is 10 and the height 100, the product 100 * 0.10 is
    the float 10, and the text of the block is extracted. *)
Lemma C1_boundary_block_is_kept :
  PrimFloat.eqb 10%float (PrimFloat.mul (page_height boundary_page) 0.10%float) = true /\
  map block_y_top (page_blocks boundary_page) = [10%float] /\
  extract_text_without_footnotes [boundary_page] = py "Hello".
Proof. vm_compute. repeat split; reflexivity. Qed.

(** C1, amended: the extracted text is made of the contributions of the
    blocks in order; a block contributes nothing, whatever its text, exactly
    when its top is less than 0.10 * height or greater than 0.85 * height
    (binary64 comparisons, both strict), and otherwise contributes what its
    own lines give; a block whose top equals 0.10 * height is not in the
    header region.  On a page 100 high a block at 5 or at 90 gives no
    text. *)
Theorem C1_region_filter :
  (forall doc,
      extract_text_without_footnotes doc
      = str_join [LF; LF]
          (flat_map (fun p => flat_map (block_contribution (page_height p))
                                       (page_blocks p)) doc)) /\
  (forall h blk, excluded h blk = true -> block_contribution h blk = []) /\
  (forall h blk, excluded h blk = false -> block_contribution h blk = block_text blk) /\
  (forall h blk,
      excluded h blk = true <->
      PrimFloat.ltb (block_y_top blk) (PrimFloat.mul h 0.10%float) = true \/
      PrimFloat.ltb (PrimFloat.mul h 0.85%float) (block_y_top blk) = true) /\
  (forall h blk,
      PrimFloat.eqb (block_y_top blk) (PrimFloat.mul h 0.10%float) = true ->
      in_header h (block_y_top blk) = false) /\
  extract_text_without_footnotes [header_page] = [] /\
  extract_text_without_footnotes [footer_page] = [].
Proof.
  split; [exact extract_contributions |].
  split; [intros h blk H; unfold block_contribution; now rewrite H |].
  split; [intros h blk H; unfold block_contribution; now rewrite H |].
  split; [| split; [| split; vm_compute; reflexivity]].
  - intros h blk. unfold excluded, in_header, in_footer. apply orb_true_iff.
  - intros h blk H. unfold in_header. now apply float_eq_not_lt.
Qed.

(** ** C2: superscript spans *)

(** C2: a span is left out of the line text exactly when its stripped text
    is all digits and its size is below 8, or bit 0 of its flags is set, or
    its stripped text is all digits and its size is below 10; the line text
    is the concatenation of the texts of the other spans, in order.  A span
    "3" of size 7 is left out and a span "Article" of size 7 is kept,
    whatever their flags. *)
Theorem C2_superscript_spans :
  (forall s,
      span_skipped s = true <->
      isdigit (strip (span_text s)) = true /\
      (PrimFloat.ltb (span_size s) 8%float = true \/
       Z.testbit (span_flags s) 0 = true \/
       (isdigit (strip (span_text s)) = true /\
        PrimFloat.ltb (span_size s) 10%float = true))) /\
  (forall l, line_text l = kept_text l) /\
  (forall flags, span_skipped (mkSpan (py "3") 7%float flags) = true) /\
  (forall flags, span_skipped (mkSpan (py "Article") 7%float flags) = false).
Proof.
  split; [| split; [exact line_text_kept | split]].
  - intros s. unfold span_skipped, is_superscript. rewrite flags_bit0.
    rewrite andb_true_iff, !orb_true_iff, andb_true_iff. tauto.
  - intros flags. reflexivity.
  - intros flags. unfold span_skipped.
    replace (isdigit (strip (span_text (mkSpan (py "Article") 7%float flags))))
      with false by (vm_compute; reflexivity).
    apply andb_false_r.
Qed.

(** ** C6: page numbers *)

(** C6: the lines of a block give the stripped texts of its lines in order,
    where a line whose stripped text is all digits and at most three
    characters long gives nothing, and a line whose stripped text is all
    digits and four or more characters long gives that text; a line "42"
    is dropped, a line "2018" is kept. *)
Theorem C6_page_numbers :
  (forall lines, block_line_texts lines = flat_map line_entry lines) /\
  (forall l,
      isdigit (strip (line_text l)) = true ->
      (List.length (strip (line_text l)) <= 3)%nat ->
      line_entry l = []) /\
  (forall l,
      isdigit (strip (line_text l)) = true ->
      (4 <= List.length (strip (line_text l)))%nat ->
      line_entry l = [strip (line_text l)]) /\
  line_entry (mkLine [mkSpan (py " 42 ") 12%float 0%Z]) = [] /\
  line_entry (mkLine [mkSpan (py "2018") 12%float 0%Z]) = [py "2018"].
Proof.
  split; [exact block_line_texts_entries |].
  split; [| split; [| split; vm_compute; reflexivity]].
  - intros l Hd Hlen. unfold line_entry, is_page_number. rewrite Hd.
    apply Nat.leb_le in Hlen. now rewrite Hlen.
  - intros l Hd Hlen. unfold line_entry, is_page_number. rewrite Hd.
    replace (Nat.leb (List.length (strip (line_text l))) 3) with false
      by (symmetry; apply Nat.leb_gt; lia).
    simpl. destruct (strip (line_text l)); [simpl in Hlen; lia | reflexivity].
Qed.

(** ** C4: scenario A *)

(** C4: the normalizer turns the text of scenario A into two paragraphs,
    "Ez egy szöveg itt." and "(2) A következő bekezdés.", separated by
    one double line break. *)
Theorem C4_scenario_A :
  clean_text
    (py "Ez egy szöveg³ itt.\n\nLásd: 2018. évi törvény.\n\n(2)\n\n A következő bekezdés.")
  = Ok (py "Ez egy szöveg itt.\n\n(2) A következő bekezdés.") /\
  str_split [LF; LF] (py "Ez egy szöveg itt.\n\n(2) A következő bekezdés.")
  = [py "Ez egy szöveg itt."; py "(2) A következő bekezdés."].
Proof. split; vm_compute; reflexivity. Qed.

(** ** C9: totality *)


(** ** C3: numbers fused to a word *)

(** C3, as stated, fails after an upper-case letter: the claim has digits
    not preceded by a lower-case letter left alone.  In "ABC12 x" the
    digits come right after the upper-case C, which is no lower-case letter
    of the class, and rule 5 matches there and deletes them. *)
Lemma C3_digits_after_uppercase_deleted :
  is_lower_letter 67 = false /\
  py "ABC12 x" = rev (rev (py "ABC")) ++ py "12 x" /\
  match_at true pat_fused false (rev (py "ABC")) (py "12 x")
  = Some (2%nat, [(1%nat, py "12")]) /\
  rule5 (py "ABC12 x") = Ok (py "ABC x").
Proof. vm_compute. repeat split; reflexivity. Qed.

(** C3, amended: rule 5 matches at a position exactly when the character
    before it is a letter of the class in either case (the set
    [letter_ranges], which the class matches under IGNORECASE), the decimal
    digits from the position on are one to three, and they are followed by
    whitespace, one of the characters . , ; : ! ? ) or the end of the text;
    the match is that whole number.  The result of the rule is the text
    without these numbers.  Digits preceded by a space, as in
    "Article 42", stay. *)
Theorem C3_fused_numbers :
  (forall c, set_match true false alphabet c = is_letter c) /\
  (forall b a,
      match_at true pat_fused false b a
      = match fused_len b a with
        | Some m => Some (m, [(1%nat, firstn m a)])
        | None => None
        end) /\
  (forall text, rule5 text = Ok (drop_fused None false text)) /\
  rule5 (py "Article 42") = Ok (py "Article 42") /\
  rule5 (py "szöveg1 további") = Ok (py "szöveg további").
Proof.
  split; [exact alphabet_letters |].
  split; [exact match_fused |].
  split; [exact rule5_drop |].
  split; vm_compute; reflexivity.
Qed.

(** ** C10: long numbers *)

(** C10: a maximal run of four or more decimal digits is left in place by
    rule 5: if the text is [pre ++ num ++ post] where [num] is such a run
    ([pre] does not end and [post] does not start with a digit), the result
    is what the rule makes of [pre], then [num] untouched, then what the
    loop makes of [post] from there. *)
Theorem C10_long_numbers_kept :
  forall pre num post,
    forallb is_decimal num = true ->
    (4 <= List.length num)%nat ->
    ends_decimal pre = false ->
    starts_decimal post = false ->
    rule5 pre = Ok (sub true pat_fused (literal []) [] pre) /\
    rule5 (pre ++ num ++ post)
    = Ok (sub true pat_fused (literal []) [] pre ++ num ++
          sub true pat_fused (literal []) (rev (pre ++ num)) post).
Proof.
  intros pre num post Hnum Hlen Hpre Hpost. split; [reflexivity |].
  rewrite rule5_drop, !sub_fused_drop. f_equal. simpl hd_error.
  assert (Hpost' : forall c s', post = c :: s' -> is_decimal c = false).
  { intros c s' ->. exact Hpost. }
  assert (Hne : num <> []) by (destruct num; [simpl in Hlen; lia | discriminate]).
  rewrite <- (app_nil_r (rev (pre ++ num))), hd_error_last. simpl hd_error.
  assert (Hlast : forall p q, last_or p num = last_or q num).
  { intros p q. unfold last_or. destruct (rev num) eqn:E; [| reflexivity].
    apply (f_equal (@rev _)) in E. rewrite rev_involutive in E. contradiction. }
  assert (Hlast' : last_or None (pre ++ num) = last_or None num).
  { unfold last_or. rewrite rev_app_distr.
    destruct (rev num) eqn:E; [| reflexivity].
    apply (f_equal (@rev _)) in E. rewrite rev_involutive in E. contradiction. }
  rewrite Hlast'.
  destruct pre as [| x pre0].
  - simpl. apply drop_fused_long; auto.
  - destruct (exists_last (l := x :: pre0)) as (pre' & c & E); [discriminate |].
    rewrite E in *. clear E x pre0.
    unfold ends_decimal in Hpre. rewrite rev_app_distr in Hpre. simpl in Hpre.
    rewrite drop_fused_prefix by exact Hpre. f_equal.
    rewrite drop_fused_long; auto. f_equal. f_equal. apply Hlast.
Qed.

(** C10 at the text "szó2018 ": the year stays. *)
Lemma C10_year_kept :
  rule5 (py "szó") = Ok (sub true pat_fused (literal []) [] (py "szó")) /\
  rule5 (py "szó" ++ py "2018" ++ py " ")
  = Ok (sub true pat_fused (literal []) [] (py "szó") ++ py "2018" ++
        sub true pat_fused (literal []) (rev (py "szó" ++ py "2018")) (py " ")).
Proof.
  apply (C10_long_numbers_kept (py "szó") (py "2018") (py " "));
    vm_compute; solve [reflexivity | repeat constructor].
Defined.

(** ** C5: what holds of every result *)

(** C5, as stated, fails for rule 4: the claim has a second run change
    no outcome of rule 4.  From "(2018. VI. 29-tőlx1.)" rule 4 finds no
    citation, rule 5 then deletes the fused 1, and the result is the
    citation "(2018. VI. 29-tőlx.)": rule 4 deletes it on a second run. *)
Lemma C5_rule4_changes_on_second_run :
  clean_text (py "(2018. VI. 29-tőlx1.)") = Ok (py "(2018. VI. 29-tőlx.)") /\
  rule4 (py "(2018. VI. 29-tőlx.)") = Ok [] /\
  clean_text (py "(2018. VI. 29-tőlx.)") = Ok [] /\
  nonempty (py "(2018. VI. 29-tőlx.)") = true.
Proof. vm_compute. repeat split; reflexivity. Qed.

(** C5, amended: for every text the result of the normalizer holds no
    superscript digit, no two spaces in a row, no three line breaks in a
    row, no blank paragraph (no paragraph break, whitespace, paragraph
    break; and no whitespace-only segment between paragraph breaks unless
    the whole result is empty) and no whitespace at either end;
    consequently rules 1, 7, 8 and 10 leave the result unchanged.  Rule 4
    is not among them. *)
Theorem C5_output_invariants :
  forall text,
  exists out,
    clean_text text = Ok out /\
    (forall c, In c out -> ~ In c superscript_digits) /\
    ~ occurs [SP; SP] out /\
    ~ occurs [LF; LF; LF] out /\
    (forall w, all_space w = true -> ~ occurs (LF :: LF :: w ++ [LF; LF]) out) /\
    (forall seg, In seg (str_split [LF; LF] out) -> all_space seg = true -> out = []) /\
    trimmed out /\
    rule1 out = out /\
    rule7 out = Ok out /\
    rule8 out = Ok out /\
    rule10 out = out.
Proof.
  intros text. exists (strip (after_rule9 text)).
  destruct (clean_invariants text) as (Hsup & Hsp & Hlf & Hblank & Hseg & Htrim).
  split; [apply clean_text_chain |].
  repeat (split; [assumption |]).
  split; [| split; [| split]].
  - apply rule1_fixed. exact Hsup.
  - unfold rule7, re_sub. simpl template_ok. cbv iota.
    now rewrite sub7_fixed by (now apply occurs_no_sp2).
  - unfold rule8, re_sub. simpl template_ok. cbv iota.
    now rewrite (sub8_fixed _ _ O) by (now apply occurs_runs_le2).
  - unfold rule10. now apply trimmed_strip.
Qed.

(** ** C7: paragraph numbers *)

Lemma rep_context p lo hi (k k' : cont) :
  (forall b b' a n g, k b a n g = k' b' a n g) ->
  forall a cnt b b' n g,
    rep p lo hi cnt b a n g k = rep p lo hi cnt b' a n g k'.
Proof.
  intros H. induction a as [| c a IH]; intros cnt b b' n g; simpl.
  - now rewrite (H b b').
  - rewrite (IH (S cnt) (c :: b) (c :: b')), (H b b'). reflexivity.
Qed.

(** A pattern without look-behind cannot tell what comes before the
    position where it is tried. *)
Lemma rx_context ic r :
  no_behind r = true ->
  forall k k' : cont,
    (forall b b' a n g, k b a n g = k' b' a n g) ->
    forall b b' a n g, rx ic r b a n g k = rx ic r b' a n g k'.
Proof.
  induction r as [| neg items | r1 IH1 r2 IH2 | r1 IH1 r2 IH2 | r1 IH1
                  | neg items lo hi | i r1 IH1 | r1 IH1 | neg items |];
    simpl; intros Hr k k' H b b' a n g; try discriminate.
  - apply H.
  - destruct a as [| c a]; auto. destruct (set_match ic neg items c); auto.
  - apply andb_true_iff in Hr as [H1 H2]. apply IH1; auto.
  - apply andb_true_iff in Hr as [H1 H2].
    rewrite (IH1 H1 k k' H b b'), (IH2 H2 k k' H b b'). reflexivity.
  - rewrite (IH1 Hr k k' H b b'), (H b b'). reflexivity.
  - now apply rep_context.
  - apply IH1; auto.
  - rewrite (IH1 Hr (fun _ _ _ g' => Some (O, g')) (fun _ _ _ g' => Some (O, g'))
               (fun _ _ _ _ _ => eq_refl) b b').
    destruct (rx ic r1 b' a n g (fun _ _ _ g' => Some (O, g'))) as [[z g'] |]; auto.
  - destruct a as [| c [| c' a]]; auto. destruct (c =? LF); auto.
Qed.

Lemma match_at_context ic r adv b b' a :
  no_behind r = true -> match_at ic r adv b a = match_at ic r adv b' a.
Proof.
  intros Hr. unfold match_at. apply rx_context; auto.
Qed.

(** C7 on the code: rule 6 joins a marker on a line of its own to the next
    paragraph, as claimed, but whether the pattern matches at a position
    does not depend on the text before it: the pattern has no anchor at the
    start of a line, so a marker at the end of a line of text is rewritten
    too and the two paragraphs become one. *)
Theorem C7_marker_inside_a_line :
  (forall adv b b' a,
      match_at false pat_marker adv b a = match_at false pat_marker adv b' a) /\
  rule6 (py "(2)\n\nA szöveg") = Ok (py "(2) A szöveg") /\
  rule6 (py "Lásd a (2)\n\nA szöveg") = Ok (py "Lásd a (2) A szöveg") /\
  str_split [LF; LF] (py "Lásd a (2)\n\nA szöveg") = [py "Lásd a (2)"; py "A szöveg"] /\
  str_split [LF; LF] (py "Lásd a (2) A szöveg") = [py "Lásd a (2) A szöveg"].
Proof.
  split.
  - intros adv b b' a. now apply match_at_context.
  - vm_compute. repeat split; reflexivity.
Qed.

(** ** C8: paragraphs written *)

